(** * solcipher: the Solitaire (Pontifex) cipher of [src/solcipher.py]

    A shallow embedding of the card-deck state machine, the card-token
    parser and the letter-combination transform, followed by the
    verification of the properties stated for them.

    Conventions of the embedding.
    - A Python [str] is a list of Unicode code points ([list Z]); a
      one-character string is its code point.
    - A Python [int] is a [Z]; a Python [list] of ints is a [list Z].
    - A Python call that may raise returns a [result]: [Ok v] for a normal
      return, [Raise e] for an exception, and [OutOfFuel] when a [while]
      loop of the source has not finished within the iteration budget that
      the model gives it (the source itself has no such budget).
    - [self.deck] is threaded explicitly: a method that mutates the deck
      takes the old list and returns the new one.
    - The [verbose] printing is a pure observer and is not embedded. *)

From Stdlib Require Import ZArith Lia.
From stdpp Require Import base tactics option list gmap.

Local Open Scope Z_scope.

(** ** Results of Python calls *)

Inductive exn : Set :=
  | ValueError
  | IndexError
  | KeyError
  | StopIteration.

Inductive result (A : Type) : Type :=
  | Ok (a : A)
  | Raise (e : exn)
  | OutOfFuel.

Arguments Ok {A} a.
Arguments Raise {A} e.
Arguments OutOfFuel {A}.

#[global] Instance result_ret : MRet result := fun A a => Ok a.

#[global] Instance result_bind : MBind result := fun A B f m =>
  match m with
  | Ok a => f a
  | Raise e => Raise e
  | OutOfFuel => OutOfFuel
  end.

(** ** Python sequence primitives *)

Module Py.

Section Seq.
Context {A : Type}.

(** [l[i]] with Python's negative indices; [IndexError] out of range. *)
Definition getitem (l : list A) (i : Z) : result A :=
  let j := if i <? 0 then i + Z.of_nat (length l) else i in
  if j <? 0 then Raise IndexError
  else match l !! Z.to_nat j with
       | Some x => Ok x
       | None => Raise IndexError
       end.

(** [l[i] = v]; [IndexError] out of range. *)
Definition setitem (l : list A) (i : Z) (v : A) : result (list A) :=
  let j := if i <? 0 then i + Z.of_nat (length l) else i in
  if j <? 0 then Raise IndexError
  else if j <? Z.of_nat (length l) then Ok (<[Z.to_nat j := v]> l)
  else Raise IndexError.

(** A slice bound is clipped to [0 .. len(l)]; a negative bound counts
    from the end. *)
Definition bound (len : nat) (i : Z) : nat :=
  if i <? 0 then Z.to_nat (Z.max 0 (i + Z.of_nat len))
  else Z.to_nat (Z.min i (Z.of_nat len)).

(** [l[lo:hi]], [l[:hi]] and [l[lo:]]. *)
Definition slice (l : list A) (lo hi : Z) : list A :=
  drop (bound (length l) lo) (take (bound (length l) hi) l).

Definition slice_to (l : list A) (hi : Z) : list A :=
  take (bound (length l) hi) l.

Definition slice_from (l : list A) (lo : Z) : list A :=
  drop (bound (length l) lo) l.

(** [l.pop()]: the last element and the list without it. *)
Definition pop (l : list A) : result (A * list A) :=
  match last l with
  | Some x => Ok (x, take (length l - 1)%nat l)
  | None => Raise IndexError
  end.
End Seq.

(** [l.index(x)]: position of the first occurrence, [ValueError] if none. *)
Fixpoint index_from (x : Z) (l : list Z) (k : Z) : result Z :=
  match l with
  | [] => Raise ValueError
  | y :: l' => if decide (y = x) then Ok k else index_from x l' (k + 1)
  end.

Definition index (x : Z) (l : list Z) : result Z := index_from x l 0.

(** [str.upper] and [str.lower] on one character. The embedding covers the
    ASCII range, where the result is again one character; the source only
    relies on them for ASCII letters and for the four suit glyphs, which
    have no case. *)
Definition upper (c : Z) : Z := if (97 <=? c) && (c <=? 122) then c - 32 else c.
Definition lower (c : Z) : Z := if (65 <=? c) && (c <=? 90) then c + 32 else c.

(** [str.isupper] on one ASCII character. *)
Definition isupper (c : Z) : bool := (65 <=? c) && (c <=? 90).

(** Python's whitespace class, shared by [\s] in [re] and by [str.split]. *)
Definition isspace (c : Z) : bool :=
  ((9 <=? c) && (c <=? 13)) || ((28 <=? c) && (c <=? 32))
  || (c =? 133) || (c =? 160) || (c =? 5760)
  || ((8192 <=? c) && (c <=? 8202))
  || (c =? 8232) || (c =? 8233) || (c =? 8239) || (c =? 8287) || (c =? 12288).

(** [s.split()]: maximal runs of non-whitespace characters. *)
Fixpoint split_aux (cur : list Z) (s : list Z) : list (list Z) :=
  match s with
  | [] => match cur with [] => [] | _ => [cur] end
  | c :: s' =>
      if isspace c
      then match cur with [] => split_aux [] s' | _ => cur :: split_aux [] s' end
      else split_aux (cur ++ [c]) s'
  end.

Definition split (s : list Z) : list (list Z) := split_aux [] s.

End Py.

(** ** Core mappings *)

Definition pystr := list Z.
Definition deck := list Z.

(** [SUITS = 'cdhs'], [VALUES = 'A23456789TJQK'],
    [SUITS_UNI = '♣♦♥♠']. *)
Definition SUITS : pystr := [99; 100; 104; 115].
Definition VALUES : pystr := [65; 50; 51; 52; 53; 54; 55; 56; 57; 84; 74; 81; 75].
Definition SUITS_UNI : pystr := [9827; 9830; 9829; 9824].

(** [_flip]: the dict sending each character to its position. Both
    alphabets used here have distinct characters, so the first match of the
    association list is the dict entry. *)
Definition _flip (s : pystr) : list (Z * Z) := imap (fun i ch => (ch, Z.of_nat i)) s.

Definition dict_get (m : list (Z * Z)) (k : Z) : result Z :=
  match list_find (fun p => p.1 = k) m with
  | Some (_, p) => Ok p.2
  | None => Raise KeyError
  end.

(** [REV_SUITS = _flip(SUITS) | _flip(SUITS_UNI)]; the key sets are
    disjoint, so the union is the concatenation. *)
Definition REV_SUITS : list (Z * Z) := _flip SUITS ++ _flip SUITS_UNI.
Definition REV_VALUES : list (Z * Z) := _flip VALUES.

(** [REV_JOKERS = {'A': 53, 'B': 54}]. *)
Definition JOKER_A : Z := 53.
Definition JOKER_B : Z := 54.

(** [re.search] of a one-character class: the first character of the token
    that belongs to the class. *)
Definition re_search_class (cls : pystr) (token : pystr) : option Z :=
  snd <$> list_find (fun c => c ∈ cls) token.

Definition RANK_CLASS : pystr := VALUES.
Definition SUIT_CLASS : pystr := [99; 100; 104; 115; 67; 68; 72; 83; 9827; 9830; 9829; 9824].

Definition read_card (token : pystr) : result Z :=
  if decide (token = [65]) then Ok JOKER_A
  else if decide (token = [66]) then Ok JOKER_B
  else
    match re_search_class RANK_CLASS token, re_search_class SUIT_CLASS token with
    | Some r, Some s =>
        let rank := Py.upper r in
        let suit := Py.lower s in
        si ← dict_get REV_SUITS suit;
        ri ← dict_get REV_VALUES rank;
        Ok (13 * si + ri + 1)
    | _, _ => Raise ValueError
    end.

(** ** Letter combination *)

Definition combine_letters (a b : Z) (sign : Z) : Z :=
  let is_upper := Py.isupper a in
  let base := if is_upper then 65 else 97 in
  let p0 := a - base in
  let k1 := b - 64 in
  let c0 := (p0 + sign * k1) mod 26 in
  base + c0.

(** The test ['A' <= ch <= 'Z' or 'a' <= ch <= 'z'] of [combine_text]. *)
Definition is_letter (ch : Z) : bool :=
  ((65 <=? ch) && (ch <=? 90)) || ((97 <=? ch) && (ch <=? 122)).

(** ** The deck *)

(** [Deck.__init__]: only the length is checked; the list is copied. *)
Definition Deck_init (cards : list Z) : result deck :=
  if decide (length cards ≠ 54%nat) then Raise ValueError else Ok cards.

(** [Deck.create]: [list(range(1, 55))]. *)
Definition create : result deck := Deck_init (seqZ 1 54).

Definition search (code : Z) (d : deck) : result Z := Py.index code d.

Definition get_card (idx : Z) (d : deck) : result Z :=
  x ← Py.getitem d idx; Ok (Z.min x 53).

(** [self.deck.insert(0, self.deck.pop())]. *)
Definition cycle_shift (d : deck) : result deck :=
  '(x, d') ← Py.pop d; Ok (x :: d').

Definition swap_down (code : Z) (d : deck) : result deck :=
  bottom ← Py.getitem d (-1);
  d1 ← (if decide (bottom = code) then cycle_shift d else Ok d);
  i ← search code d1;
  let j := (i + 1) mod 54 in
  dj ← Py.getitem d1 j;
  di ← Py.getitem d1 i;
  d2 ← Py.setitem d1 i dj;
  Py.setitem d2 j di.

Definition count_cut (count : Z) (d : deck) : result deck :=
  let x := Py.slice_to d count in
  let y := Py.slice d count (-1) in
  z ← Py.getitem d (-1);
  Ok (y ++ x ++ [z]).

(** The triple-cut block of [shift_cut]. *)
Definition triple_cut (d : deck) : result deck :=
  a ← search 53 d;
  b ← search 54 d;
  let i1 := Z.min a b in
  let i2 := Z.max a b in
  let top := Py.slice_to d i1 in
  let mid := Py.slice d i1 (i2 + 1) in
  let bot := Py.slice_from d (i2 + 1) in
  Ok (bot ++ mid ++ top).

Definition shift_cut (d : deck) : result deck :=
  d1 ← swap_down JOKER_A d;
  d2 ← swap_down JOKER_B d1;
  d3 ← swap_down JOKER_B d2;
  d4 ← triple_cut d3;
  bottom ← Py.getitem d4 (-1);
  let cnt := if bottom <? 53 then bottom else 53 in
  count_cut cnt d4.

(** [next_key_letter]: the [while card > 52] loop, one iteration per unit
    of fuel. [card] starts at 54, so the body runs at least once. *)
Fixpoint next_key_letter (fuel : nat) (d : deck) : result (Z * deck) :=
  match fuel with
  | O => OutOfFuel
  | S fuel' =>
      d' ← shift_cut d;
      top ← get_card 0 d';
      card ← get_card top d';
      if card >? 52 then next_key_letter fuel' d'
      else Ok ((card - 1) mod 26 + 65, d')
  end.

(** [add_password_letter]: one round, then a count cut keyed by the letter. *)
Definition add_password_letter (letter : Z) (d : deck) : result deck :=
  d1 ← shift_cut d;
  let cnt := Py.upper letter - 64 in
  count_cut cnt d1.

(** The [for ch in pw] loop shared by [from_password] and [main]. *)
Fixpoint add_password (pw : pystr) (d : deck) : result deck :=
  match pw with
  | [] => Ok d
  | ch :: pw' => d' ← add_password_letter ch d; add_password pw' d'
  end.

Definition from_password (pw : pystr) : result deck :=
  d ← create; add_password pw d.

(** ** The key stream generator

    [get_key_stream(length)] is a generator over the deck of its object.
    Its frame holds [length] and the counter [i]; every [next] runs the
    loop test and, when it passes, one [next_key_letter] on the deck. *)
Record keygen : Set := { kg_length : Z; kg_i : Z }.

Definition get_key_stream (length : Z) : keygen :=
  {| kg_length := length; kg_i := 0 |}.

Definition gen_next (fuel : nat) (g : keygen) (d : deck)
  : result (Z * keygen * deck) :=
  if (kg_length g <=? 0) || (kg_i g <? kg_length g) then
    '(k, d') ← next_key_letter fuel d;
    Ok (k, {| kg_length := kg_length g; kg_i := kg_i g + 1 |}, d')
  else Raise StopIteration.

(** [combine_text]: the [for ch in text] loop. The generator and the deck
    it draws from are threaded through; the deck reached at the end is
    returned next to the output string. *)
Fixpoint combine_text (fuel : nat) (text : pystr) (g : keygen) (d : deck)
    (sign : Z) : result (pystr * deck) :=
  match text with
  | [] => Ok ([], d)
  | ch :: text' =>
      if is_letter ch then
        '(k, g', d') ← gen_next fuel g d;
        '(out, d'') ← combine_text fuel text' g' d' sign;
        Ok (combine_letters ch k sign :: out, d'')
      else combine_text fuel text' g d sign
  end.

Definition encrypt (fuel : nat) (plaintext : pystr) (d : deck)
  : result (pystr * deck) :=
  combine_text fuel plaintext (get_key_stream 0) d 1.

Definition decrypt (fuel : nat) (ciphertext : pystr) (d : deck)
  : result (pystr * deck) :=
  combine_text fuel ciphertext (get_key_stream 0) d (-1).

(** The first [n] letters drawn from a generator. *)
Fixpoint draw (fuel : nat) (n : nat) (g : keygen) (d : deck)
  : result (list Z * deck) :=
  match n with
  | O => Ok ([], d)
  | S n' =>
      '(k, g', d') ← gen_next fuel g d;
      '(ks, d'') ← draw fuel n' g' d';
      Ok (k :: ks, d'')
  end.

(** ** Deck construction from text *)

(** The characters kept by the [re.sub] of [from_input]:
    [AB2-9TJQKcdhsCDHS], the four suit glyphs and whitespace. *)
Definition INPUT_CLASS : pystr :=
  [65; 66; 50; 51; 52; 53; 54; 55; 56; 57; 84; 74; 81; 75;
   99; 100; 104; 115; 67; 68; 72; 83; 9827; 9830; 9829; 9824].

Definition keep_char (c : Z) : bool :=
  bool_decide (c ∈ INPUT_CLASS) || Py.isspace c.

Definition tokenize (inp : pystr) : list pystr :=
  Py.split (List.filter keep_char inp).

(** [[read_card(t) for t in tokens]]: stops at the first token that raises. *)
Fixpoint read_cards (tokens : list pystr) : result (list Z) :=
  match tokens with
  | [] => Ok []
  | t :: ts => c ← read_card t; cs ← read_cards ts; Ok (c :: cs)
  end.

(** [from_input] after the tokens have been cut out of the input. *)
Definition from_tokens (tokens : list pystr) : result deck :=
  if decide (length tokens ≠ 54%nat) then Raise ValueError
  else
    vals ← read_cards tokens;
    if decide (length (remove_dups vals) ≠ 54%nat) then Raise ValueError
    else Deck_init vals.

Definition from_input (inp : pystr) : result deck :=
  from_tokens (tokenize inp).

(** [default_line], already cut into its 54 tokens. *)
Definition default_tokens : list pystr :=
  concat ((fun s => (fun r => [r; s]) <$> VALUES) <$> SUITS_UNI) ++ [[65]; [66]].

(** * Vocabulary of the properties *)

(** ** Well-formed decks *)

(** A deck state is well formed when it is a rearrangement of 1..54. *)
Definition valid_deck (d : deck) : Prop := d ≡ₚ seqZ 1 54.

(** The decks on which a round can be run: 54 cards, both jokers present.
    On such a deck a card value is a usable index when it is at least -54. *)
Definition shaped (d : deck) : Prop :=
  length d = 54%nat ∧ 53 ∈ d ∧ 54 ∈ d ∧ Forall (fun x => -54 ≤ x) d.

(** ** Rounds and the card they point at *)

(** [rounds n]: [n] successive calls of [shift_cut]. *)
Fixpoint rounds (n : nat) (d : deck) : result deck :=
  match n with
  | O => Ok d
  | S n' => d' ← shift_cut d; rounds n' d'
  end.

(** The card examined by [next_key_letter] after a round. *)
Definition output_card (d : deck) : result Z :=
  top ← get_card 0 d; get_card top d.


(** [skipped k d]: each of the first [k] rounds from [d] ends on a deck
    whose examined card is a joker (above 52), so the loop goes on. *)
Definition skipped (k : nat) (d : deck) : Prop :=
  ∀ j : nat, (1 ≤ j ≤ k)%nat →
    ∃ dj cj, rounds j d = Ok dj ∧ output_card dj = Ok cj ∧ 52 < cj.

(** ** Reference points for key-letter derivation *)

(** The key-letter derivation as the specification words it, with the
    examined card taken at index [top - 1]. Only used to compare with
    [next_key_letter]. *)
Fixpoint next_output_letter_as_specified (fuel : nat) (d : deck)
  : result (Z * deck) :=
  match fuel with
  | O => OutOfFuel
  | S fuel' =>
      d' ← shift_cut d;
      top ← get_card 0 d';
      card ← get_card (top - 1) d';
      if card >? 52 then next_output_letter_as_specified fuel' d'
      else Ok ((card - 1) mod 26 + 65, d')
  end.

Definition letter_of {A} (r : result (Z * A)) : result Z :=
  '(l, _) ← r; Ok l.

(** A defective deck of 54 cards, all of them counted as jokers. *)
Definition joker_only_deck : deck := seqZ 53 54.

(** The letter after [k] in the alphabet, wrapping from Z to A. *)
Definition next_letter (k : Z) : Z := if k =? 90 then 65 else k + 1.

(** ** Sequences of deck operations *)

Inductive deck_op : Set :=
  | OpSwapDown (code : Z)
  | OpCycleShift
  | OpTripleCut
  | OpCountCut (n : Z)
  | OpShiftCut
  | OpPasswordLetter (letter : Z)
  | OpNextKeyLetter.

Definition run_op (fuel : nat) (o : deck_op) (d : deck) : result deck :=
  match o with
  | OpSwapDown code => swap_down code d
  | OpCycleShift => cycle_shift d
  | OpTripleCut => triple_cut d
  | OpCountCut n => count_cut n d
  | OpShiftCut => shift_cut d
  | OpPasswordLetter letter => add_password_letter letter d
  | OpNextKeyLetter => '(_, d') ← next_key_letter fuel d; Ok d'
  end.

Fixpoint run_ops (fuel : nat) (ops : list deck_op) (d : deck) : result deck :=
  match ops with
  | [] => Ok d
  | o :: ops' => d' ← run_op fuel o d; run_ops fuel ops' d'
  end.

(** The arguments with which the cipher calls the operations: a joker for
    the joker move, a cut size in 0..53, an ASCII letter for the
    passphrase. *)
Definition op_in_domain (o : deck_op) : Prop :=
  match o with
  | OpSwapDown code => code = JOKER_A ∨ code = JOKER_B
  | OpCountCut n => 0 ≤ n ≤ 53
  | OpPasswordLetter letter => is_letter letter = true
  | _ => True
  end.

(** ** Reading a card token *)

(** [first_match cls t r]: [r] is the first character of [t] that belongs
    to the class [cls]. *)
Definition first_match (cls t : pystr) (r : Z) : Prop :=
  ∃ i : nat, t !! i = Some r ∧ r ∈ cls
             ∧ ∀ (j : nat) y, t !! j = Some y → (j < i)%nat → y ∉ cls.

(** Position of a rank character in [A23456789TJQK]. *)
Definition rank_no (r : Z) : Z :=
  if r =? 65 then 0                         (* A *)
  else if (50 <=? r) && (r <=? 57) then r - 49   (* 2..9 *)
  else if r =? 84 then 9                    (* T *)
  else if r =? 74 then 10                   (* J *)
  else if r =? 81 then 11                   (* Q *)
  else 12.                                  (* K *)

(** Number of a suit character: clubs, diamonds, hearts, spades, in either
    case of the ASCII letter or as a glyph. *)
Definition suit_no (s : Z) : Z :=
  if (s =? 99) || (s =? 67) || (s =? 9827) then 0
  else if (s =? 100) || (s =? 68) || (s =? 9830) then 1
  else if (s =? 104) || (s =? 72) || (s =? 9829) then 2
  else 3.

(** The characters that the filter of [Deck.from_input] keeps inside a
    token, and the test for a token that is not empty. *)
Definition in_alphabet (c : Z) : bool := bool_decide (c ∈ INPUT_CLASS).

Definition nonempty (t : pystr) : bool :=
  match t with
  | [] => false
  | _ :: _ => true
  end.

(** ** Deck objects

    To speak of two [Deck] instances at once, instances are addresses in a
    store of decks. [Deck.__init__] copies the list it is given
    ([self.deck = list(cards)]), so every instance owns its list: a new
    instance gets a fresh address, and a method reads and writes the deck
    at the address of [self] only. *)

Abbreviation store := (gmap nat deck).

Definition new_deck (d : deck) (σ : store) : nat * store :=
  let self := fresh (dom σ) in (self, <[self := d]> σ).

(** A method call on [self]; an address that holds no instance cannot be
    called. *)
Definition on_self {A} (f : deck → result (A * deck)) (self : nat) (σ : store)
  : result (A * store) :=
  match σ !! self with
  | Some d => '(a, d') ← f d; Ok (a, <[self := d']> σ)
  | None => Raise KeyError
  end.

(** [deck = Deck.from_input(seed)] followed by
    [for ch in passphrase: deck.add_password_letter(ch)], as in [main]. *)
Definition build (seed pw : pystr) (σ : store) : result (nat * store) :=
  d ← from_input seed;
  let new := new_deck d σ in
  r ← on_self (fun d => d' ← add_password pw d; Ok (tt, d')) new.1 new.2;
  Ok (new.1, r.2).

(** The first [n] letters of [self.get_key_stream(len)]. *)
Definition key_stream_prefix (fuel : nat) (len : Z) (n : nat) (self : nat)
    (σ : store) : result (list Z * store) :=
  on_self (draw fuel n (get_key_stream len)) self σ.

(** The deck that a seed and a passphrase determine. *)
Definition keyed_deck (seed pw : pystr) : result deck :=
  d ← from_input seed; add_password pw d.

(** * The remaining functions of the source *)

(** ** Formatting cards and printing the deck *)

(** [sep.join(parts)]. *)
Fixpoint str_join (sep : pystr) (parts : list pystr) : pystr :=
  match parts with
  | [] => []
  | [p] => p
  | p :: ps => p ++ sep ++ str_join sep ps
  end.

(** [list(s)] for a string [s]: its one-character strings. *)
Definition chars (s : pystr) : list pystr := (fun c => [c]) <$> s.

(** [card_writer(code, suits)]. [suits] is indexed like a Python sequence of
    strings: the default argument, the string [SUITS], is [chars SUITS].
    [JOKERS = {53: 'A', 54: 'B'}]; [//] and [%] are floor division and its
    remainder. *)
Definition card_writer (code : Z) (suits : list pystr) : result pystr :=
  if decide (code = 53) then Ok [65]
  else if decide (code = 54) then Ok [66]
  else
    rank ← Py.getitem VALUES ((code - 1) mod 13);
    suit ← Py.getitem suits ((code - 1) / 13);
    Ok (rank :: suit).

(** The colour markup of [print_state]: ESC[31m ... ESC[0m. *)
Definition red (s : pystr) : pystr :=
  [27; 91; 51; 49; 109] ++ s ++ [27; 91; 48; 109].

(** The suit alphabet chosen by [print_state(unicode, color)]. *)
Definition print_state_suits (unicode color : bool) : result (list pystr) :=
  let suits := chars (if unicode then SUITS_UNI else SUITS) in
  if color then
    s0 ← Py.getitem suits 0;
    s1 ← Py.getitem suits 1;
    s2 ← Py.getitem suits 2;
    s3 ← Py.getitem suits 3;
    Ok [s0; red s1; red s2; s3]
  else Ok suits.

(** [card_writer(c, suits) for c in self.deck], stopping at the first
    card that raises. *)
Fixpoint write_cards (suits : list pystr) (d : deck) : result (list pystr) :=
  match d with
  | [] => Ok []
  | c :: d' => t ← card_writer c suits; ts ← write_cards suits d'; Ok (t :: ts)
  end.

(** The line that [print_state] prints when [verbose] is set; [None] when
    it prints nothing. *)
Definition print_state (verbose unicode color : bool) (d : deck)
  : result (option pystr) :=
  if negb verbose then Ok None
  else
    suits ← print_state_suits unicode color;
    ts ← write_cards suits d;
    Ok (Some (str_join [32] ts)).

(** ** Grouping the output *)

(** [range(0, stop, step)] for a positive [step]. *)
Definition range_step (stop step : Z) : list Z :=
  (fun k => Z.of_nat k * step) <$> seq 0 (Z.to_nat ((stop + step - 1) / step)).

Definition group_text (text : pystr) (size : Z) : pystr :=
  if size <=? 0 then text
  else
    str_join [32]
      ((fun i => Py.slice text i (i + size))
         <$> range_step (Z.of_nat (length text)) size).

(** ** The command line

    [main] after [parse_args]: the parsed arguments are a record. The
    mutually exclusive options [-e] and [-d] are both kept, as [argparse]
    delivers them ([None] when absent). The embedding covers [verbose]
    unset and a passphrase of ASCII characters. The outcome is the line
    printed, or the exception that ends the program. *)
Record cli_args : Set := {
  arg_encrypt : option pystr;
  arg_decrypt : option pystr;
  arg_passphrase : option pystr;
  arg_deck : pystr;
  arg_group_size : Z
}.

Inductive outcome : Set :=
  | Prints (line : pystr)
  | Uncaught (e : exn)
  | UncaughtTypeError
  | StillRunning.

Definition outcome_of (r : result pystr) : outcome :=
  match r with
  | Ok line => Prints line
  | Raise e => Uncaught e
  | OutOfFuel => StillRunning
  end.

(** [re.sub(r'[^A-Za-z]', '', text).upper()]. *)
Definition clean_text (text : pystr) : pystr :=
  Py.upper <$> List.filter is_letter text.

(** Truth value of an optional string: [None] and [''] are false. *)
Definition truthy (s : option pystr) : bool :=
  match s with
  | Some (_ :: _) => true
  | _ => false
  end.

Definition main_deck (args : cli_args) : result deck :=
  d ← (if truthy (Some (arg_deck args)) then from_input (arg_deck args)
       else create);
  match arg_passphrase args with
  | Some pw => if truthy (Some pw) then add_password pw d else Ok d
  | None => Ok d
  end.

Definition main (fuel : nat) (args : cli_args) : outcome :=
  match main_deck args with
  | Ok d =>
      if truthy (arg_encrypt args) then
        match arg_encrypt args with
        | Some text =>
            outcome_of ('(r, _) ← encrypt fuel (clean_text text) d;
                        Ok (group_text r (arg_group_size args)))
        | None => UncaughtTypeError
        end
      else
        match arg_decrypt args with
        | Some text =>
            outcome_of ('(r, _) ← decrypt fuel (clean_text text) d;
                        Ok (group_text r (arg_group_size args)))
        | None => UncaughtTypeError
        end
  | Raise e => Uncaught e
  | OutOfFuel => StillRunning
  end.

(** What one code gives when written with a suit alphabet and read back,
    directly and after the character filter of [from_input]. *)
Definition card_round_trip_ok (suits : list pystr) (c : Z) : bool :=
  match card_writer c suits with
  | Ok t =>
      let t' := List.filter keep_char t in
      match read_card t, read_card t' with
      | Ok c1, Ok c2 =>
          (c1 =? c) && (c2 =? c)
          && negb (bool_decide (t' = []))
          && forallb (fun x => negb (Py.isspace x)) t'
      | _, _ => false
      end
  | _ => false
  end.

(** Strings of ASCII characters, the range on which [Py.upper] is
    [str.upper]; the passphrase is the one string of the command line that
    reaches it unfiltered. *)
Definition ascii (s : pystr) : Prop := Forall (fun c => 0 ≤ c ≤ 127) s.

Definition ascii_passphrase (args : cli_args) : Prop :=
  match arg_passphrase args with
  | Some pw => ascii pw
  | None => True
  end.

(** The text [main] works on: [args.encrypt] when it is true, otherwise
    [args.decrypt]. *)
Definition main_text (args : cli_args) : option pystr :=
  if truthy (arg_encrypt args) then arg_encrypt args else arg_decrypt args.

(** * Verification *)

(** ** Published vectors

    The embedding reproduces the vectors published with the Solitaire
    cipher: the key stream of the unkeyed deck, the encryption of ten
    letters A under it, and of fifteen under the passphrase [foo]. *)

Example key_stream_unkeyed :
  match draw 4 10 (get_key_stream 0) (seqZ 1 54) with
  | Ok (ks, _) => ks
  | _ => []
  end = [68; 87; 74; 88; 72; 89; 82; 70; 68; 71].
Proof. vm_compute. reflexivity. Qed.

Example encrypt_unkeyed :
  match encrypt 4 (replicate 10 65) (seqZ 1 54) with
  | Ok (c, _) => c
  | _ => []
  end = [69; 88; 75; 89; 73; 90; 83; 71; 69; 72].
Proof. vm_compute. reflexivity. Qed.

Example encrypt_keyed_foo :
  match d ← from_password [102; 111; 111]; encrypt 4 (replicate 15 65) d with
  | Ok (c, _) => c
  | _ => []
  end = [73; 84; 72; 90; 85; 74; 73; 87; 71; 82; 70; 65; 82; 77; 87].
Proof. vm_compute. reflexivity. Qed.

Example from_input_default_line :
  from_input (mjoin ((fun t => t ++ [32]) <$> default_tokens)) = create.
Proof. vm_compute. reflexivity. Qed.

(** ** The result monad *)

Lemma bind_Ok {A B} (m : result A) (f : A → result B) (b : B) :
  m ≫= f = Ok b ↔ ∃ a, m = Ok a ∧ f a = Ok b.
Proof.
  destruct m as [a|e|]; simpl.
  - split; [intros H; by exists a | by intros (a' & [= <-] & H)].
  - split; [done | by intros (a' & ? & _)].
  - split; [done | by intros (a' & ? & _)].
Qed.

Ltac inv_bind H :=
  repeat match type of H with
    | mbind _ _ = Ok _ =>
        let a := fresh "a" in
        let Ha := fresh "Ha" in
        apply bind_Ok in H as (a & Ha & H)
    end.

(** ** Python sequence primitives *)

Section PySeq.
Context {A : Type}.
Implicit Types l : list A.

Lemma getitem_nonneg l (n : nat) x :
  l !! n = Some x → Py.getitem l (Z.of_nat n) = Ok x.
Proof.
  intros H. unfold Py.getitem.
  destruct (Z.ltb_spec (Z.of_nat n) 0) as [?|_]; [lia|].
  destruct (Z.ltb_spec (Z.of_nat n) 0) as [?|_]; [lia|].
  by rewrite Nat2Z.id, H.
Qed.

Lemma getitem_last l z : Py.getitem (l ++ [z]) (-1) = Ok z.
Proof.
  unfold Py.getitem. rewrite length_app. simpl.
  replace (-1 + Z.of_nat (length l + 1)) with (Z.of_nat (length l)) by lia.
  destruct (Z.ltb_spec (Z.of_nat (length l)) 0) as [?|_]; [lia|].
  rewrite Nat2Z.id, lookup_app_r, Nat.sub_diag by lia. done.
Qed.

Lemma getitem_Ok_elem_of l i x : Py.getitem l i = Ok x → x ∈ l.
Proof.
  unfold Py.getitem. intros H.
  destruct (_ <? 0); [done|].
  destruct (l !! _) as [y|] eqn:E; [|done].
  injection H as ->. by eapply list_elem_of_lookup_2.
Qed.

Lemma setitem_nonneg l (n : nat) v :
  (n < length l)%nat → Py.setitem l (Z.of_nat n) v = Ok (<[n := v]> l).
Proof.
  intros H. unfold Py.setitem.
  destruct (Z.ltb_spec (Z.of_nat n) 0) as [?|_]; [lia|].
  destruct (Z.ltb_spec (Z.of_nat n) 0) as [?|_]; [lia|].
  destruct (Z.ltb_spec (Z.of_nat n) (Z.of_nat (length l))) as [_|?]; [|lia].
  by rewrite Nat2Z.id.
Qed.

Lemma bound_nonneg len (n : nat) :
  (n ≤ len)%nat → Py.bound len (Z.of_nat n) = n.
Proof.
  intros H. unfold Py.bound.
  destruct (Z.ltb_spec (Z.of_nat n) 0) as [?|_]; lia.
Qed.

Lemma bound_le len i : (Py.bound len i ≤ len)%nat.
Proof. unfold Py.bound. destruct (Z.ltb_spec i 0); lia. Qed.

Lemma bound_neg1 len : Py.bound (S len) (-1) = len.
Proof. unfold Py.bound. destruct (Z.ltb_spec (-1) 0); lia. Qed.

Lemma bound_below len i : i ≤ Z.of_nat len → (Py.bound (S len) i ≤ len)%nat.
Proof. intros H. unfold Py.bound. destruct (Z.ltb_spec i 0); lia. Qed.

(** Exchanging two cells is a permutation. *)
Lemma swap_Permutation l (i j : nat) x y :
  l !! i = Some x → l !! j = Some y → <[j := x]> (<[i := y]> l) ≡ₚ l.
Proof.
  intros Hi Hj. apply Permutation_inj.
  split; [by rewrite !length_insert|].
  pose proof (lookup_lt_Some _ _ _ Hi) as Hli.
  pose proof (lookup_lt_Some _ _ _ Hj) as Hlj.
  exists (fun k => if decide (k = j) then i else if decide (k = i) then j else k).
  split.
  - intros a b. repeat case_decide; intros; subst; congruence.
  - intros k. repeat case_decide; subst.
    + by rewrite list_lookup_insert_eq, Hi by (by rewrite length_insert).
    + rewrite list_lookup_insert_ne by done.
      by rewrite list_lookup_insert_eq, Hj.
    + by rewrite !list_lookup_insert_ne by done.
Qed.

Lemma snoc_of_length l n :
  length l = S n → ∃ l' z, l = l' ++ [z] ∧ length l' = n.
Proof.
  intros H. destruct (decide (l = [])) as [->|Hne]; [done|].
  destruct (exists_last Hne) as (l' & z & ->).
  exists l', z. split; [done|]. rewrite length_app in H. simpl in H. lia.
Qed.

Lemma pop_snoc l z : Py.pop (l ++ [z]) = Ok (z, l).
Proof.
  unfold Py.pop. rewrite last_snoc, length_app. simpl.
  replace (length l + 1 - 1)%nat with (length l) by lia.
  by rewrite take_app_length.
Qed.
End PySeq.

Lemma index_from_elem_of x l k :
  x ∈ l →
  ∃ n : nat, Py.index_from x l k = Ok (k + Z.of_nat n) ∧ l !! n = Some x
             ∧ ∀ m : nat, (m < n)%nat → l !! m ≠ Some x.
Proof.
  revert k. induction l as [|y l IH]; intros k Hin; [by apply elem_of_nil in Hin|].
  simpl. destruct (decide (y = x)) as [->|Hne].
  - exists 0%nat. split; [f_equal; lia|]. split; [done|]. intros m ?; lia.
  - apply elem_of_cons in Hin as [->|Hin]; [done|].
    destruct (IH (k + 1) Hin) as (n & E & Hn & Hmin).
    exists (S n). split; [rewrite E; f_equal; lia|]. split; [done|].
    intros [|m] ?; simpl; [congruence|]. apply Hmin. lia.
Qed.

Lemma index_elem_of x l :
  x ∈ l →
  ∃ n : nat, Py.index x l = Ok (Z.of_nat n) ∧ l !! n = Some x
             ∧ ∀ m : nat, (m < n)%nat → l !! m ≠ Some x.
Proof.
  intros H. destruct (index_from_elem_of x l 0 H) as (n & E & ?).
  exists n. by rewrite Z.add_0_l in E.
Qed.

Lemma index_from_not_elem_of x l k :
  x ∉ l → Py.index_from x l k = Raise ValueError.
Proof.
  revert k. induction l as [|y l IH]; intros k Hin; [done|].
  simpl. apply not_elem_of_cons in Hin as [? ?].
  destruct (decide (y = x)); [congruence|]. by apply IH.
Qed.

(** ** Every step of a round rearranges the deck *)

Lemma cycle_shift_snoc (d : deck) z : cycle_shift (d ++ [z]) = Ok (z :: d).
Proof. unfold cycle_shift. by rewrite pop_snoc. Qed.

Lemma swap_down_Permutation code (d : deck) :
  length d = 54%nat → code ∈ d →
  ∃ d', swap_down code d = Ok d' ∧ d' ≡ₚ d.
Proof.
  intros Hlen Hin.
  destruct (snoc_of_length d 53 Hlen) as (d0 & z & -> & Hlen0).
  unfold swap_down. rewrite getitem_last. cbn [mbind result_bind].
  match goal with |- context [mbind ?k _] => set (rest := k) end.
  assert (∀ d1 : deck, length d1 = 54%nat → code ∈ d1 →
          ∃ d', rest d1 = Ok d' ∧ d' ≡ₚ d1) as Hrest.
  { intros d1 Hlen1 Hin1. subst rest. cbn beta.
    destruct (index_elem_of code d1 Hin1) as (n & En & Hn & _).
    unfold search. rewrite En. cbn [mbind result_bind].
    pose proof (lookup_lt_Some _ _ _ Hn) as Hn54.
    pose proof (Z.mod_pos_bound (Z.of_nat n + 1) 54 ltac:(lia)) as Hj.
    set (j := (Z.of_nat n + 1) mod 54) in *.
    destruct (lookup_lt_is_Some_2 d1 (Z.to_nat j) ltac:(lia)) as [dj Hdj].
    rewrite <- (Z2Nat.id j) by lia.
    rewrite (getitem_nonneg _ _ _ Hdj). cbn [mbind result_bind].
    rewrite (getitem_nonneg _ _ _ Hn). cbn [mbind result_bind].
    rewrite setitem_nonneg by lia. cbn [mbind result_bind].
    rewrite setitem_nonneg by (rewrite length_insert; lia).
    eexists. split; [done|]. by apply swap_Permutation. }
  case_decide.
  - rewrite cycle_shift_snoc. cbn [mbind result_bind].
    assert (z :: d0 ≡ₚ d0 ++ [z]) as Hp by (by rewrite Permutation_app_comm).
    destruct (Hrest (z :: d0)) as (d' & ? & ?); [by rewrite Hp..|].
    exists d'. split; [done|]. by etrans.
  - cbn [mbind result_bind]. by apply Hrest.
Qed.

Lemma triple_cut_Permutation (d : deck) :
  53 ∈ d → 54 ∈ d → ∃ d', triple_cut d = Ok d' ∧ d' ≡ₚ d.
Proof.
  intros HA HB.
  destruct (index_elem_of 53 d HA) as (a & Ea & Ha & _).
  destruct (index_elem_of 54 d HB) as (b & Eb & Hb & _).
  unfold triple_cut, search. rewrite Ea. cbn [mbind result_bind].
  rewrite Eb. cbn [mbind result_bind].
  eexists. split; [done|].
  apply lookup_lt_Some in Ha, Hb.
  unfold Py.slice_from, Py.slice_to, Py.slice.
  replace (Z.min (Z.of_nat a) (Z.of_nat b)) with (Z.of_nat (a `min` b)) by lia.
  replace (Z.max (Z.of_nat a) (Z.of_nat b) + 1)
    with (Z.of_nat (S (a `max` b))) by lia.
  rewrite !bound_nonneg by lia.
  set (i1 := (a `min` b)%nat). set (i2 := S (a `max` b)).
  rewrite (Permutation_app_comm (drop i2 d)).
  rewrite (Permutation_app_comm (drop i1 (take i2 d))).
  assert (take i1 d ++ drop i1 (take i2 d) = take i2 d) as ->.
  { replace (take i1 d) with (take i1 (take i2 d)); [apply take_drop|].
    rewrite take_take. f_equal. lia. }
  by rewrite take_drop.
Qed.

(** The shape of the deck after a count cut whose size stays below the
    bottom card. *)
Lemma count_cut_snoc (d : deck) z count :
  count ≤ Z.of_nat (length d) →
  count_cut count (d ++ [z])
  = Ok (drop (Py.bound (S (length d)) count) d
        ++ take (Py.bound (S (length d)) count) d ++ [z]).
Proof.
  intros Hc. unfold count_cut. rewrite getitem_last. cbn [mbind result_bind].
  unfold Py.slice, Py.slice_to. rewrite length_app. simpl length.
  replace (length d + 1)%nat with (S (length d)) by lia.
  rewrite bound_neg1. pose proof (bound_below (length d) count Hc).
  by rewrite !take_app_le, take_ge by lia.
Qed.

Lemma count_cut_Permutation count (d : deck) :
  length d = 54%nat → count ≤ 53 →
  ∃ d', count_cut count d = Ok d' ∧ d' ≡ₚ d.
Proof.
  intros Hlen Hc.
  destruct (snoc_of_length d 53 Hlen) as (d0 & z & -> & Hlen0).
  rewrite count_cut_snoc by lia. eexists. split; [done|].
  rewrite app_assoc. apply Permutation_app; [|done].
  by rewrite Permutation_app_comm, take_drop.
Qed.

Lemma shift_cut_Permutation (d : deck) :
  length d = 54%nat → 53 ∈ d → 54 ∈ d →
  ∃ d', shift_cut d = Ok d' ∧ d' ≡ₚ d.
Proof.
  intros Hlen HA HB. unfold shift_cut, JOKER_A, JOKER_B.
  destruct (swap_down_Permutation 53 d Hlen HA) as (d1 & -> & P1).
  cbn [mbind result_bind].
  destruct (swap_down_Permutation 54 d1) as (d2 & -> & P2);
    [by rewrite P1..|].
  cbn [mbind result_bind].
  destruct (swap_down_Permutation 54 d2) as (d3 & -> & P3);
    [by rewrite P2, P1..|].
  cbn [mbind result_bind].
  destruct (triple_cut_Permutation d3) as (d4 & -> & P4);
    [by rewrite P3, P2, P1..|].
  cbn [mbind result_bind].
  assert (length d4 = 54%nat) as Hlen4 by (by rewrite P4, P3, P2, P1).
  destruct (snoc_of_length d4 53 Hlen4) as (d5 & z & E & Hlen5).
  assert (Py.getitem d4 (-1) = Ok z) as -> by (rewrite E; apply getitem_last).
  cbn [mbind result_bind].
  destruct (count_cut_Permutation (if z <? 53 then z else 53) d4 Hlen4)
    as (d6 & -> & P6).
  { destruct (Z.ltb_spec z 53); lia. }
  exists d6. split; [done|]. by rewrite P6, P4, P3, P2, P1.
Qed.

(** ** Well-formed decks *)

Lemma valid_deck_length d : valid_deck d → length d = 54%nat.
Proof. unfold valid_deck. intros H. by rewrite H. Qed.

Lemma valid_deck_elem_of d x : valid_deck d → x ∈ d ↔ 1 ≤ x ≤ 54.
Proof. unfold valid_deck. intros H. rewrite H, elem_of_seqZ. lia. Qed.

Lemma valid_deck_NoDup d : valid_deck d → NoDup d.
Proof. unfold valid_deck. intros H. rewrite H. apply NoDup_seqZ. Qed.

(** No duplicates and no omissions, spelled out. *)
Lemma valid_deck_alt d :
  valid_deck d ↔ length d = 54%nat ∧ NoDup d ∧ ∀ x, x ∈ d ↔ 1 ≤ x ≤ 54.
Proof.
  split.
  - intros H. split; [by apply valid_deck_length|].
    split; [by apply valid_deck_NoDup|]. intros x. by apply valid_deck_elem_of.
  - intros (Hlen & Hnd & Hel). apply NoDup_Permutation; [done|apply NoDup_seqZ|].
    intros x. rewrite Hel, elem_of_seqZ. lia.
Qed.

Lemma valid_deck_of_distinct d :
  length d = 54%nat → NoDup d → (∀ x, x ∈ d → 1 ≤ x ≤ 54) → valid_deck d.
Proof.
  intros Hlen Hnd Hel. apply submseteq_length_Permutation.
  - apply NoDup_submseteq; [done|]. intros x Hx. apply elem_of_seqZ.
    specialize (Hel x Hx). lia.
  - by rewrite Hlen.
Qed.

Lemma valid_deck_Permutation d d' : d' ≡ₚ d → valid_deck d → valid_deck d'.
Proof. unfold valid_deck. by intros ->. Qed.

(** ** Rounds and the card they point at *)

Lemma shaped_Permutation d d' : d' ≡ₚ d → shaped d → shaped d'.
Proof. intros H (?&?&?&?). unfold shaped. by rewrite H. Qed.

Lemma valid_deck_shaped d : valid_deck d → shaped d.
Proof.
  intros H. split; [by apply valid_deck_length|].
  split; [apply (valid_deck_elem_of _ _ H); lia|].
  split; [apply (valid_deck_elem_of _ _ H); lia|].
  apply Forall_forall. intros x Hx. apply (valid_deck_elem_of _ _ H) in Hx. lia.
Qed.

Lemma shift_cut_shaped d :
  shaped d → ∃ d', shift_cut d = Ok d' ∧ d' ≡ₚ d.
Proof. intros (?&?&?&?). by apply shift_cut_Permutation. Qed.

Lemma rounds_shaped n d :
  shaped d → ∃ d', rounds n d = Ok d' ∧ d' ≡ₚ d.
Proof.
  revert d. induction n as [|n IH]; intros d Hd; [by exists d|].
  destruct (shift_cut_shaped d Hd) as (d1 & E1 & P1).
  destruct (IH d1) as (d2 & E2 & P2); [by eapply shaped_Permutation|].
  exists d2. simpl. rewrite E1. cbn [mbind result_bind].
  split; [done|]. by etrans.
Qed.

Lemma getitem_in_range (d : deck) (i : Z) :
  - Z.of_nat (length d) ≤ i < Z.of_nat (length d) →
  ∃ x, Py.getitem d i = Ok x ∧ x ∈ d.
Proof.
  intros Hi. unfold Py.getitem.
  set (j := if i <? 0 then i + Z.of_nat (length d) else i).
  assert (0 ≤ j < Z.of_nat (length d)) as Hj.
  { subst j. destruct (Z.ltb_spec i 0); lia. }
  destruct (Z.ltb_spec j 0); [lia|].
  destruct (lookup_lt_is_Some_2 d (Z.to_nat j) ltac:(lia)) as [x Hx].
  rewrite Hx. exists x. split; [done|]. by eapply list_elem_of_lookup_2.
Qed.

Lemma get_card_in_range (d : deck) (i : Z) :
  - Z.of_nat (length d) ≤ i < Z.of_nat (length d) →
  ∃ x, get_card i d = Ok (Z.min x 53) ∧ x ∈ d.
Proof.
  intros Hi. destruct (getitem_in_range d i Hi) as (x & E & Hx).
  exists x. unfold get_card. by rewrite E.
Qed.

(** On a shaped deck the examined card exists: no index is out of range. *)
Lemma output_card_shaped d :
  shaped d → ∃ x, output_card d = Ok (Z.min x 53) ∧ x ∈ d.
Proof.
  intros (Hlen & _ & _ & Hlow). unfold output_card.
  destruct (get_card_in_range d 0) as (t & -> & Ht); [lia|].
  cbn [mbind result_bind].
  rewrite Forall_forall in Hlow. specialize (Hlow t Ht).
  apply get_card_in_range. lia.
Qed.

(** ** The loop of [next_key_letter] *)

Lemma next_key_letter_S n d :
  next_key_letter (S n) d
  = d' ← shift_cut d;
    card ← output_card d';
    if card >? 52 then next_key_letter n d' else Ok ((card - 1) mod 26 + 65, d').
Proof.
  simpl. destruct (shift_cut d) as [d'| |]; [|done..].
  cbn [mbind result_bind]. unfold output_card.
  by destruct (get_card 0 d').
Qed.

Lemma rounds_S n d : rounds (S n) d = d' ← shift_cut d; rounds n d'.
Proof. done. Qed.

(** None of the loop-free operations can exhaust the budget. *)
Lemma bind_OutOfFuel {A B} (m : result A) (f : A → result B) :
  m ≠ OutOfFuel → (∀ a, f a ≠ OutOfFuel) → m ≫= f ≠ OutOfFuel.
Proof. destruct m; simpl; auto. Qed.

Lemma getitem_fuel {A} (l : list A) i : Py.getitem l i ≠ OutOfFuel.
Proof. unfold Py.getitem. by repeat case_match. Qed.

Lemma setitem_fuel {A} (l : list A) i v : Py.setitem l i v ≠ OutOfFuel.
Proof. unfold Py.setitem. by repeat case_match. Qed.

Lemma index_from_fuel x l k : Py.index_from x l k ≠ OutOfFuel.
Proof. revert k. induction l; intros k; simpl; [done|]. by case_decide. Qed.

Lemma get_card_fuel i d : get_card i d ≠ OutOfFuel.
Proof.
  unfold get_card. apply bind_OutOfFuel; [apply getitem_fuel|done].
Qed.

Lemma output_card_fuel d : output_card d ≠ OutOfFuel.
Proof.
  unfold output_card. apply bind_OutOfFuel; [|intros]; apply get_card_fuel.
Qed.

Lemma cycle_shift_fuel d : cycle_shift d ≠ OutOfFuel.
Proof. unfold cycle_shift, Py.pop. by destruct (last d). Qed.

Ltac no_fuel :=
  repeat (apply bind_OutOfFuel; [|intros]);
  first [ apply getitem_fuel | apply setitem_fuel | apply index_from_fuel
        | case_decide; [apply cycle_shift_fuel|done]
        | done ].

Lemma swap_down_fuel code d : swap_down code d ≠ OutOfFuel.
Proof. unfold swap_down. no_fuel. Qed.

Lemma count_cut_fuel n d : count_cut n d ≠ OutOfFuel.
Proof. unfold count_cut. no_fuel. Qed.

Lemma triple_cut_fuel d : triple_cut d ≠ OutOfFuel.
Proof. unfold triple_cut. no_fuel. Qed.

Lemma shift_cut_fuel d : shift_cut d ≠ OutOfFuel.
Proof. unfold shift_cut. no_fuel. Qed.

Lemma output_card_Ok d c :
  output_card d = Ok c ↔ ∃ top, get_card 0 d = Ok top ∧ get_card top d = Ok c.
Proof. unfold output_card. apply bind_Ok. Qed.

Lemma rounds_S_Ok k d d' :
  rounds (S k) d = Ok d' ↔ ∃ d1, shift_cut d = Ok d1 ∧ rounds k d1 = Ok d'.
Proof. rewrite rounds_S. apply bind_Ok. Qed.

Lemma skipped_0 d : skipped 0 d.
Proof. intros j ?. lia. Qed.

Lemma skipped_S k d :
  skipped (S k) d ↔
  ∃ d1 c1, shift_cut d = Ok d1 ∧ output_card d1 = Ok c1 ∧ 52 < c1
           ∧ skipped k d1.
Proof.
  split.
  - intros H. destruct (H 1%nat ltac:(lia)) as (d1 & c1 & Hr & Ho & Hc).
    apply rounds_S_Ok in Hr as (d1' & E1 & Hr0).
    simpl in Hr0. injection Hr0 as ->.
    exists d1, c1. split; [done|]. split; [done|]. split; [done|].
    intros j Hj. destruct (H (S j) ltac:(lia)) as (dj & cj & Hrj & ?).
    apply rounds_S_Ok in Hrj as (d1' & E1' & Hrj).
    rewrite E1 in E1'. injection E1' as <-. by exists dj, cj.
  - intros (d1 & c1 & E1 & Ho & Hc & H) [|[|j]] Hj; [lia| |].
    + exists d1, c1. split; [|done]. apply rounds_S_Ok. by exists d1.
    + destruct (H (S j) ltac:(lia)) as (dj & cj & Hrj & ?).
      exists dj, cj. split; [|done]. apply rounds_S_Ok. by exists d1.
Qed.

(** The budget runs out exactly when every round so far was skipped. *)
Lemma next_key_letter_OutOfFuel_iff n d :
  next_key_letter n d = OutOfFuel ↔ skipped n d.
Proof.
  revert d. induction n as [|n IH]; intros d.
  { split; [intros _; apply skipped_0 | done]. }
  rewrite next_key_letter_S, skipped_S.
  pose proof (shift_cut_fuel d) as Hf.
  destruct (shift_cut d) as [d1|e|]; [|split; [done|by intros (?&?&?&_)]|done].
  cbn [mbind result_bind]. pose proof (output_card_fuel d1) as Hf1.
  destruct (output_card d1) as [c1|e|] eqn:Eo;
    [|split; [done|intros (?&?&[= <-]&?&_); congruence]|done].
  cbn [mbind result_bind]. destruct (Z.gtb_spec c1 52) as [Hc|Hc].
  - rewrite IH. split; [intros H; by exists d1, c1|].
    intros (d1' & c1' & [= <-] & Eo' & _ & H). done.
  - split; [done|]. intros (d1' & c1' & [= <-] & Eo' & ? & _).
    rewrite Eo in Eo'. injection Eo' as <-. lia.
Qed.

(** The loop returns exactly at the first round that is not skipped. *)
Lemma next_key_letter_Ok_iff n d l d' :
  next_key_letter n d = Ok (l, d') ↔
  ∃ (k : nat) (c : Z),
    (k < n)%nat ∧ skipped k d ∧ rounds (S k) d = Ok d'
    ∧ output_card d' = Ok c ∧ c ≤ 52 ∧ l = (c - 1) mod 26 + 65.
Proof.
  revert d. induction n as [|n IH]; intros d.
  { split; [done|]. intros (k & c & ? & _). lia. }
  rewrite next_key_letter_S.
  destruct (shift_cut d) as [d1|e|] eqn:E1; cycle 1.
  { split; [done|]. intros (k & c & _ & _ & Hr & _).
    apply rounds_S_Ok in Hr as (? & ? & _). congruence. }
  { split; [done|]. intros (k & c & _ & _ & Hr & _).
    apply rounds_S_Ok in Hr as (? & ? & _). congruence. }
  cbn [mbind result_bind].
  assert (∀ k c, skipped k d → rounds (S k) d = Ok d' → output_card d' = Ok c →
                 c ≤ 52 →
                 match k with
                 | O => d' = d1 ∧ output_card d1 = Ok c
                 | S k' => ∃ c1, output_card d1 = Ok c1 ∧ 52 < c1 ∧ skipped k' d1
                           ∧ rounds (S k') d1 = Ok d'
                 end) as Hcase.
  { intros k c Hs Hr Ho Hc. apply rounds_S_Ok in Hr as (d1' & E1' & Hr).
    rewrite E1 in E1'. injection E1' as <-. destruct k as [|k'].
    - injection Hr as <-. done.
    - apply skipped_S in Hs as (d1' & c1 & E1' & ? & ? & ?).
      rewrite E1 in E1'. injection E1' as <-. by exists c1. }
  destruct (output_card d1) as [c1|e|] eqn:Eo; cbn [mbind result_bind]; cycle 1.
  { split; [done|]. intros (k & c & _ & Hs & Hr & Ho & Hc & _).
    specialize (Hcase k c Hs Hr Ho Hc). destruct k; [by destruct Hcase|].
    by destruct Hcase as (? & ? & _). }
  { split; [done|]. intros (k & c & _ & Hs & Hr & Ho & Hc & _).
    specialize (Hcase k c Hs Hr Ho Hc). destruct k; [by destruct Hcase|].
    by destruct Hcase as (? & ? & _). }
  destruct (Z.gtb_spec c1 52) as [Hc1|Hc1].
  - rewrite IH. split.
    + intros (k & c & Hk & Hs & Hr & Ho & Hc & Hl).
      exists (S k), c. split; [lia|]. split; [apply skipped_S; by exists d1, c1|].
      split; [apply rounds_S_Ok; by exists d1|done].
    + intros (k & c & Hk & Hs & Hr & Ho & Hc & Hl).
      specialize (Hcase k c Hs Hr Ho Hc). destruct k as [|k'].
      * destruct Hcase as [_ [= ->]]. lia.
      * destruct Hcase as (c1' & _ & _ & Hs' & Hr').
        exists k', c. split; [lia|done].
  - split.
    + intros [= <- <-]. exists 0%nat, c1. split; [lia|].
      split; [apply skipped_0|]. split; [apply rounds_S_Ok; by exists d1|done].
    + intros (k & c & Hk & Hs & Hr & Ho & Hc & Hl).
      specialize (Hcase k c Hs Hr Ho Hc). destruct k as [|k'].
      * destruct Hcase as [-> [= ->]]. by rewrite Hl.
      * destruct Hcase as (c1' & [= <-] & ? & _). lia.
Qed.

(** On a shaped deck the loop cannot raise: it either returns a letter of
    A..Z on a rearranged deck or is still running. *)
Lemma next_key_letter_shaped n d :
  shaped d →
  match next_key_letter n d with
  | Ok (l, d') => d' ≡ₚ d ∧ 65 ≤ l ≤ 90
  | Raise _ => False
  | OutOfFuel => True
  end.
Proof.
  revert d. induction n as [|n IH]; intros d Hd; [done|].
  rewrite next_key_letter_S.
  destruct (shift_cut_shaped d Hd) as (d1 & -> & P1). cbn [mbind result_bind].
  assert (shaped d1) as Hd1 by (by eapply shaped_Permutation).
  destruct (output_card_shaped d1 Hd1) as (x & -> & _). cbn [mbind result_bind].
  destruct (Z.gtb_spec (x `min` 53) 52).
  - specialize (IH d1 Hd1). destruct (next_key_letter n d1) as [[l d']| |]; try done.
    destruct IH as [? ?]. split; [by etrans|done].
  - split; [done|].
    pose proof (Z.mod_pos_bound (x `min` 53 - 1) 26 ltac:(lia)). lia.
Qed.

Lemma upper_letter c : is_letter c = true → 65 ≤ Py.upper c ≤ 90.
Proof.
  unfold is_letter, Py.upper. intros H.
  destruct (Z.leb_spec 97 c), (Z.leb_spec c 122); simpl in *; lia.
Qed.

Lemma add_password_letter_shaped c d :
  shaped d → Py.upper c - 64 ≤ 53 →
  ∃ d', add_password_letter c d = Ok d' ∧ d' ≡ₚ d.
Proof.
  intros Hd Hc. unfold add_password_letter.
  destruct (shift_cut_shaped d Hd) as (d1 & -> & P1). cbn [mbind result_bind].
  destruct (count_cut_Permutation (Py.upper c - 64) d1) as (d2 & -> & P2);
    [by rewrite P1; destruct Hd|done|].
  exists d2. split; [done|]. by etrans.
Qed.

(** ** Sequences of deck operations *)

Lemma run_op_valid fuel o d :
  valid_deck d → op_in_domain o →
  match run_op fuel o d with
  | Ok d' => valid_deck d'
  | Raise _ => False
  | OutOfFuel => True
  end.
Proof.
  intros Hv Ho. pose proof (valid_deck_shaped d Hv) as Hs.
  pose proof Hs as (Hlen & HA & HB & _).
  destruct o as [code| | |n| |c|]; simpl.
  - destruct (swap_down_Permutation code d Hlen) as (d' & -> & P).
    { destruct Ho as [-> | ->]; done. }
    by eapply valid_deck_Permutation.
  - destruct (snoc_of_length d 53 Hlen) as (d0 & z & -> & _).
    rewrite cycle_shift_snoc. eapply valid_deck_Permutation; [|done].
    by rewrite Permutation_app_comm.
  - destruct (triple_cut_Permutation d HA HB) as (d' & -> & P).
    by eapply valid_deck_Permutation.
  - destruct (count_cut_Permutation n d Hlen) as (d' & -> & P);
      [simpl in Ho; lia|]. by eapply valid_deck_Permutation.
  - destruct (shift_cut_shaped d Hs) as (d' & -> & P).
    by eapply valid_deck_Permutation.
  - destruct (add_password_letter_shaped c d Hs) as (d' & -> & P).
    { pose proof (upper_letter c Ho). lia. }
    by eapply valid_deck_Permutation.
  - pose proof (next_key_letter_shaped fuel d Hs) as H.
    destruct (next_key_letter fuel d) as [[l d']| |]; try done.
    cbn [mbind result_bind]. destruct H. by eapply valid_deck_Permutation.
Qed.

(** C3. Starting from a permutation of 1..54, any sequence of deck
    operations (joker moves, rotation, triple cut, count cut, full rounds,
    passphrase letters, key-letter derivation) runs without raising and
    leaves a 54-card state that is again a permutation of 1..54: no
    duplicates, no omissions. A key-letter loop that is still running only
    passes through full rounds, which are operations of their own here, so
    its intermediate states are covered as well. *)
Theorem permutation_invariant (fuel : nat) (ops : list deck_op) (d : deck) :
  valid_deck d → Forall op_in_domain ops →
  match run_ops fuel ops d with
  | Ok d' => length d' = 54%nat ∧ NoDup d' ∧ ∀ x, x ∈ d' ↔ 1 ≤ x ≤ 54
  | Raise _ => False
  | OutOfFuel => True
  end.
Proof.
  intros Hv Hops. revert d Hv.
  induction Hops as [|o ops Ho Hops IH]; intros d Hv; simpl.
  - by apply valid_deck_alt.
  - pose proof (run_op_valid fuel o d Hv Ho) as H.
    destruct (run_op fuel o d) as [d'| |]; try done.
    cbn [mbind result_bind]. by apply IH.
Qed.

Lemma permutation_invariant_witness :
  match
    run_ops 4 [OpSwapDown 53; OpSwapDown 54; OpCycleShift; OpTripleCut;
               OpCountCut 0; OpCountCut 53; OpShiftCut; OpPasswordLetter 102;
               OpNextKeyLetter] (seqZ 1 54)
  with
  | Ok d' => length d' = 54%nat ∧ NoDup d' ∧ ∀ x, x ∈ d' ↔ 1 ≤ x ≤ 54
  | Raise _ => False
  | OutOfFuel => True
  end.
Proof.
  apply permutation_invariant.
  - unfold valid_deck. reflexivity.
  - repeat constructor; simpl; lia.
Defined.

(** ** The count cut *)

(** C4. For every 54-card deck and every [n] in 0..53, [count_cut n]
    returns a deck of 54 cards whose last card is the last card of the
    input; [count_cut 0] returns the deck unchanged (and so does
    [count_cut 53]). *)
Theorem count_cut_frame (d : deck) (n : Z) :
  length d = 54%nat → 0 ≤ n ≤ 53 →
  ∃ d', count_cut n d = Ok d'
        ∧ length d' = 54%nat
        ∧ last d' = last d
        ∧ (n = 0 ∨ n = 53 → d' = d).
Proof.
  intros Hlen Hn.
  destruct (snoc_of_length d 53 Hlen) as (d0 & z & -> & Hlen0).
  rewrite count_cut_snoc by lia. eexists. split; [done|].
  rewrite Hlen0.
  replace (Py.bound 54 n) with (Z.to_nat n)
    by (rewrite <- (Z2Nat.id n) at 2 by lia; rewrite bound_nonneg; lia).
  split; [|split].
  - rewrite !length_app, length_drop, length_take. simpl. lia.
  - by rewrite !app_assoc, !last_snoc.
  - intros [-> | ->].
    + by rewrite drop_0, take_0.
    + by rewrite drop_ge, take_ge by lia.
Qed.

Lemma count_cut_frame_witness :
  ∃ d', count_cut 53 (seqZ 1 54) = Ok d'
        ∧ length d' = 54%nat
        ∧ last d' = last (seqZ 1 54)
        ∧ (53 = 0 ∨ 53 = 53 → d' = seqZ 1 54).
Proof. apply count_cut_frame; [reflexivity | lia]. Defined.

(** ** Letter combination *)

Lemma combine_letters_A k :
  65 ≤ k ≤ 90 → combine_letters 65 k 1 = next_letter k.
Proof.
  intros Hk. unfold combine_letters, next_letter.
  change (Py.isupper 65) with true. cbv beta iota zeta.
  replace (65 - 65 + 1 * (k - 64)) with (k - 64) by lia.
  destruct (Z.eqb_spec k 90) as [->|Hne]; [done|].
  rewrite Z.mod_small by lia. lia.
Qed.

Lemma combine_letters_letter a k :
  is_letter a = true →
  is_letter (combine_letters a k 1) = true
  ∧ combine_letters (combine_letters a k 1) k (-1) = a.
Proof.
  unfold is_letter, combine_letters, Py.isupper. intros Ha.
  destruct (Z.leb_spec 65 a), (Z.leb_spec a 90); simpl in Ha |- *.
  - pose proof (Z.mod_pos_bound (a - 65 + 1 * (k - 64)) 26 ltac:(lia)) as Hm.
    set (c0 := (a - 65 + 1 * (k - 64)) mod 26) in *.
    destruct (Z.leb_spec 65 (65 + c0)), (Z.leb_spec (65 + c0) 90); try lia.
    simpl. split; [done|].
    replace (65 + c0 - 65 + -1 * (k - 64)) with (c0 - (k - 64)) by lia.
    subst c0. rewrite Zminus_mod_idemp_l.
    replace (a - 65 + 1 * (k - 64) - (k - 64)) with (a - 65) by lia.
    rewrite Z.mod_small by lia. lia.
  - destruct (Z.leb_spec 97 a), (Z.leb_spec a 122); simpl in Ha; try done.
    pose proof (Z.mod_pos_bound (a - 97 + 1 * (k - 64)) 26 ltac:(lia)) as Hm.
    set (c0 := (a - 97 + 1 * (k - 64)) mod 26) in *.
    destruct (Z.leb_spec 65 (97 + c0)), (Z.leb_spec (97 + c0) 90),
      (Z.leb_spec 97 (97 + c0)), (Z.leb_spec (97 + c0) 122); try lia.
    simpl. split; [done|].
    replace (97 + c0 - 97 + -1 * (k - 64)) with (c0 - (k - 64)) by lia.
    subst c0. rewrite Zminus_mod_idemp_l.
    replace (a - 97 + 1 * (k - 64) - (k - 64)) with (a - 97) by lia.
    rewrite Z.mod_small by lia. lia.
  - lia.
  - destruct (Z.leb_spec 97 a), (Z.leb_spec a 122); simpl in Ha; try done.
    lia.
Qed.

(** ** The key stream *)

Lemma next_key_letter_range n d l d' :
  next_key_letter n d = Ok (l, d') → 65 ≤ l ≤ 90.
Proof.
  intros H. apply next_key_letter_Ok_iff in H as (k & c & _ & _ & _ & _ & _ & ->).
  pose proof (Z.mod_pos_bound (c - 1) 26 ltac:(lia)). lia.
Qed.

(** A larger budget does not change a result already obtained. *)
Lemma next_key_letter_mono n m d r :
  (n ≤ m)%nat → next_key_letter n d = Ok r → next_key_letter m d = Ok r.
Proof.
  intros Hnm. destruct r as [l d']. rewrite !next_key_letter_Ok_iff.
  intros (k & c & ? & ?). exists k, c. split; [lia|done].
Qed.

Lemma gen_next_Ok fuel g d k g' d' :
  gen_next fuel g d = Ok (k, g', d') →
  next_key_letter fuel d = Ok (k, d')
  ∧ g' = {| kg_length := kg_length g; kg_i := kg_i g + 1 |}.
Proof.
  unfold gen_next. destruct (_ || _); [|done].
  destruct (next_key_letter fuel d) as [[k0 d0]| |]; [|done..].
  cbn [mbind result_bind]. by intros [= -> <- ->].
Qed.

Lemma gen_next_unbounded fuel g d :
  kg_length g ≤ 0 →
  gen_next fuel g d
  = '(k, d') ← next_key_letter fuel d;
    Ok (k, {| kg_length := kg_length g; kg_i := kg_i g + 1 |}, d').
Proof.
  intros H. unfold gen_next.
  by destruct (Z.leb_spec (kg_length g) 0); [|lia].
Qed.

(** Drawing from an unbounded generator over a shaped deck cannot raise. *)
Lemma draw_shaped fuel n g d :
  shaped d → kg_length g ≤ 0 →
  match draw fuel n g d with
  | Ok (ks, d') => d' ≡ₚ d ∧ length ks = n ∧ Forall (fun k => 65 ≤ k ≤ 90) ks
  | Raise _ => False
  | OutOfFuel => True
  end.
Proof.
  revert g d. induction n as [|n IH]; intros g d Hd Hg; simpl; [done|].
  rewrite gen_next_unbounded by done.
  pose proof (next_key_letter_shaped fuel d Hd) as H.
  destruct (next_key_letter fuel d) as [[k d1]| |] eqn:E; try done.
  cbn [mbind result_bind]. destruct H as [P1 Hk].
  specialize (IH {| kg_length := kg_length g; kg_i := kg_i g + 1 |} d1).
  destruct (draw fuel n _ d1) as [[ks d2]| |]; cbn [mbind result_bind];
    try (apply IH; [by eapply shaped_Permutation|done]).
  destruct IH as (P2 & Hlen & Hks); [by eapply shaped_Permutation|done|].
  split; [by etrans|]. split; [simpl; lia|]. by constructor.
Qed.

(** On a text made of letters, [combine_text] draws one key letter per
    character and combines position by position. *)
Lemma combine_text_letters fuel T g d sign :
  Forall (fun c => is_letter c = true) T →
  combine_text fuel T g d sign
  = '(ks, d') ← draw fuel (length T) g d;
    Ok (zip_with (fun a k => combine_letters a k sign) T ks, d').
Proof.
  intros HT. revert g d. induction HT as [|ch T Hch HT IH]; intros g d; [done|].
  simpl. rewrite Hch.
  destruct (gen_next fuel g d) as [[[k g'] d1]| |]; [|done..].
  cbn [mbind result_bind]. rewrite IH.
  by destruct (draw fuel (length T) g' d1) as [[ks d2]| |].
Qed.

Lemma zip_combine_letters T ks :
  Forall (fun c => is_letter c = true) T → length ks = length T →
  let C := zip_with (fun a k => combine_letters a k 1) T ks in
  length C = length T
  ∧ Forall (fun c => is_letter c = true) C
  ∧ zip_with (fun a k => combine_letters a k (-1)) C ks = T.
Proof.
  intros HT. revert ks. induction HT as [|ch T Hch HT IH]; intros ks Hlen.
  { by destruct ks. }
  destruct ks as [|k ks]; [done|]. simpl in *.
  destruct (IH ks ltac:(lia)) as (H1 & H2 & H3).
  destruct (combine_letters_letter ch k Hch) as [H4 H5].
  split; [by rewrite H1|]. split; [by constructor|]. by rewrite H5, H3.
Qed.

(** ** Key-letter derivation *)

(** C1, as stated, fails: on the standard deck the first round ends with
    top card 2; the source examines the card at index 2 (the third card, 4,
    letter D), where the statement takes index [top - 1] (the second card,
    3, letter C). *)
Lemma next_key_letter_not_as_specified :
  letter_of (next_key_letter 1 (seqZ 1 54)) = Ok 68
  ∧ letter_of (next_output_letter_as_specified 1 (seqZ 1 54)) = Ok 67.
Proof. split; vm_compute; reflexivity. Qed.

(** C1 (amended). For every deck state, [next_key_letter] runs full rounds;
    after each round it computes [top = get_card(0)] and
    [card = get_card(top)], the card at 0-based index [top] (both clamped
    to 53); it returns at the first round with [card <= 52], with the letter
    [chr('A' + (card - 1) mod 26)], and goes on otherwise. *)
Theorem next_key_letter_card_after_top (n : nat) (d : deck) (l : Z) (d' : deck) :
  next_key_letter n d = Ok (l, d') ↔
  ∃ (k : nat) (top card : Z),
    (k < n)%nat
    ∧ (∀ j : nat, (1 ≤ j ≤ k)%nat →
        ∃ dj tj cj, rounds j d = Ok dj ∧ get_card 0 dj = Ok tj
                    ∧ get_card tj dj = Ok cj ∧ 52 < cj)
    ∧ rounds (S k) d = Ok d'
    ∧ get_card 0 d' = Ok top
    ∧ get_card top d' = Ok card
    ∧ card ≤ 52
    ∧ l = (card - 1) mod 26 + 65.
Proof.
  rewrite next_key_letter_Ok_iff. split.
  - intros (k & c & Hk & Hs & Hr & Ho & Hc & Hl).
    apply output_card_Ok in Ho as (top & Ht & Hcard).
    exists k, top, c. split; [done|]. split; [|done].
    intros j Hj. destruct (Hs j Hj) as (dj & cj & Hrj & Hoj & Hcj).
    apply output_card_Ok in Hoj as (tj & ? & ?). by exists dj, tj, cj.
  - intros (k & top & c & Hk & Hs & Hr & Ht & Hcard & Hc & Hl).
    exists k, c. split; [done|]. split.
    + intros j Hj. destruct (Hs j Hj) as (dj & tj & cj & Hrj & ? & ? & Hcj).
      exists dj, cj. split; [done|]. split; [|done].
      apply output_card_Ok. by exists tj.
    + split; [done|]. split; [|done]. apply output_card_Ok. by exists top.
Qed.

Lemma next_key_letter_all_jokers n d :
  shaped d → Forall (fun x => 53 ≤ x) d → next_key_letter n d = OutOfFuel.
Proof.
  revert d. induction n as [|n IH]; intros d Hd Hall; [done|].
  rewrite next_key_letter_S.
  destruct (shift_cut_shaped d Hd) as (d1 & -> & P1). cbn [mbind result_bind].
  assert (shaped d1) as Hd1 by (by eapply shaped_Permutation).
  assert (Forall (fun x => 53 ≤ x) d1) as Hall1 by (by rewrite P1).
  destruct (output_card_shaped d1 Hd1) as (x & -> & Hx).
  cbn [mbind result_bind].
  pose proof (proj1 (Forall_forall _ _) Hall1 x Hx) as Hx53. cbn beta in Hx53.
  destruct (Z.gtb_spec (x `min` 53) 52); [|lia].
  by apply IH.
Qed.

(** C7, as stated, fails: on this 54-card state no number of rounds makes
    the loop stop. *)
Lemma next_key_letter_has_no_cap :
  length joker_only_deck = 54%nat
  ∧ ∀ cap : nat, next_key_letter cap joker_only_deck = OutOfFuel.
Proof.
  split; [done|]. intros cap. apply next_key_letter_all_jokers.
  - split; [done|]. unfold joker_only_deck.
    split; [apply elem_of_seqZ; lia|]. split; [apply elem_of_seqZ; lia|].
    apply Forall_seqZ. intros; lia.
  - apply Forall_seqZ. intros; lia.
Qed.

(** C7 (amended). The joker-skip loop is a plain [while card > 52] without
    an iteration cap: after any number [n] of rounds it is still running
    exactly when each of these rounds ended on a card above 52. It stops
    only at the first round whose card is at most 52, or on an exception;
    on a permutation of 1..54 no exception can occur. *)
Theorem next_key_letter_stops_only_on_card (n : nat) (d : deck) :
  (next_key_letter n d = OutOfFuel ↔
   ∀ j : nat, (1 ≤ j ≤ n)%nat →
     ∃ dj tj cj, rounds j d = Ok dj ∧ get_card 0 dj = Ok tj
                 ∧ get_card tj dj = Ok cj ∧ 52 < cj)
  ∧ (valid_deck d → ∀ e, next_key_letter n d ≠ Raise e).
Proof.
  split.
  - rewrite next_key_letter_OutOfFuel_iff. split.
    + intros Hs j Hj. destruct (Hs j Hj) as (dj & cj & Hrj & Hoj & Hcj).
      apply output_card_Ok in Hoj as (tj & ? & ?). by exists dj, tj, cj.
    + intros Hs j Hj. destruct (Hs j Hj) as (dj & tj & cj & Hrj & ? & ? & Hcj).
      exists dj, cj. split; [done|]. split; [|done].
      apply output_card_Ok. by exists tj.
  - intros Hv e He.
    pose proof (next_key_letter_shaped n d (valid_deck_shaped d Hv)) as H.
    by rewrite He in H.
Qed.

(** ** Encryption and decryption *)

(** C8, as stated, fails: plaintext A under key letter A gives B. *)
Lemma combine_letters_A_A : combine_letters 65 65 1 = 66 ∧ 66 ≠ 65.
Proof. split; [reflexivity | lia]. Qed.

(** C8 (amended). For every key-stream letter [k] in A..Z, encrypting the
    plaintext letter A with key letter [k] yields the letter after [k]
    (B for A, ..., A for Z), because the key letter counts from 1; so
    encrypting a plaintext of [n] letters A yields the first [n] key-stream
    letters, each advanced by one place. *)
Theorem encrypt_A_yields_next_letter (k : Z) (fuel n : nat) (d : deck) :
  65 ≤ k ≤ 90 →
  combine_letters 65 k 1 = next_letter k
  ∧ encrypt fuel (replicate n 65) d
    = '(ks, d') ← draw fuel n (get_key_stream 0) d;
      Ok (next_letter <$> (ks : list Z), d').
Proof.
  intros Hk. split; [by apply combine_letters_A|].
  unfold encrypt. rewrite combine_text_letters
    by (apply Forall_replicate; reflexivity).
  rewrite length_replicate. generalize (get_key_stream 0). revert d.
  induction n as [|n IH]; intros d g; [done|].
  simpl. destruct (gen_next fuel g d) as [[[k1 g'] d1]| |] eqn:E; [|done..].
  cbn [mbind result_bind]. specialize (IH d1 g').
  apply gen_next_Ok in E as [E _]. apply next_key_letter_range in E.
  destruct (draw fuel n g' d1) as [[ks d2]| |]; [|done..].
  cbn [mbind result_bind] in *. injection IH as IH.
  by rewrite IH, combine_letters_A.
Qed.

Lemma encrypt_A_yields_next_letter_witness :
  combine_letters 65 90 1 = next_letter 90
  ∧ encrypt 4 (replicate 3 65) (seqZ 1 54)
    = '(ks, d') ← draw 4 3 (get_key_stream 0) (seqZ 1 54);
      Ok (next_letter <$> (ks : list Z), d').
Proof. apply encrypt_A_yields_next_letter. lia. Defined.

(** ** Card tokens *)

Ltac enum_elem_of H :=
  repeat first [ apply elem_of_nil in H; destruct H
               | apply elem_of_cons in H as [-> | H] ].

Lemma re_search_class_Some cls t r :
  re_search_class cls t = Some r ↔ first_match cls t r.
Proof.
  unfold re_search_class, first_match. rewrite fmap_Some. split.
  - intros ([i x] & H & ->). apply list_find_Some in H as (? & ? & ?).
    by exists i.
  - intros (i & ? & ? & ?). exists (i, r). split; [|done].
    by apply list_find_Some.
Qed.

Lemma re_search_class_None cls t :
  re_search_class cls t = None ↔ Forall (fun x => x ∉ cls) t.
Proof. unfold re_search_class. rewrite fmap_None. apply list_find_None. Qed.

Lemma card_code_of_chars r s :
  r ∈ RANK_CLASS → s ∈ SUIT_CLASS →
  (si ← dict_get REV_SUITS (Py.lower s);
   ri ← dict_get REV_VALUES (Py.upper r);
   Ok (13 * si + ri + 1)) = Ok (13 * suit_no s + rank_no r + 1)
  ∧ 1 ≤ 13 * suit_no s + rank_no r + 1 ≤ 52.
Proof.
  intros Hr Hs. unfold RANK_CLASS, VALUES in Hr. unfold SUIT_CLASS in Hs.
  enum_elem_of Hr; enum_elem_of Hs; (split; [reflexivity | done]).
Qed.

(** What [read_card] does on a token that is not a joker label. *)
Lemma read_card_cases t :
  t ≠ [65] → t ≠ [66] →
  match read_card t with
  | Ok c =>
      ∃ r s, first_match RANK_CLASS t r ∧ first_match SUIT_CLASS t s
             ∧ c = 13 * suit_no s + rank_no r + 1 ∧ 1 ≤ c ≤ 52
  | Raise e =>
      e = ValueError
      ∧ (Forall (fun x => x ∉ RANK_CLASS) t ∨ Forall (fun x => x ∉ SUIT_CLASS) t)
  | OutOfFuel => False
  end.
Proof.
  intros HA HB. unfold read_card.
  do 2 (case_decide; [done|]).
  destruct (re_search_class RANK_CLASS t) as [r|] eqn:Er.
  - destruct (re_search_class SUIT_CLASS t) as [s|] eqn:Es.
    + apply re_search_class_Some in Er, Es.
      pose proof Er as (_ & _ & Hr & _). pose proof Es as (_ & _ & Hs & _).
      destruct (card_code_of_chars r s Hr Hs) as [-> Hrange].
      cbv beta iota. by exists r, s.
    + split; [done|]. right. by apply re_search_class_None.
  - split; [done|]. left. by apply re_search_class_None.
Qed.

Lemma read_card_total t :
  (∃ c, read_card t = Ok c ∧ 1 ≤ c ≤ 54) ∨ read_card t = Raise ValueError.
Proof.
  destruct (decide (t = [65])) as [->|HA]; [left; by exists 53|].
  destruct (decide (t = [66])) as [->|HB]; [left; by exists 54|].
  pose proof (read_card_cases t HA HB) as H.
  destruct (read_card t) as [c|e|]; [|by destruct H as [-> _]; right|done].
  destruct H as (r & s & _ & _ & _ & ?). left. exists c. split; [done|lia].
Qed.

(** C5, as stated, fails: a lower-case rank character is not a rank, so
    [ac] and [tc] do not parse although [Ac] and [Tc] do. *)
Lemma read_card_lowercase_rank :
  read_card [97; 99] = Raise ValueError ∧ read_card [65; 99] = Ok 1
  ∧ read_card [116; 99] = Raise ValueError ∧ read_card [84; 99] = Ok 10.
Proof. repeat split. Qed.

(** C5 (amended). For every token that is not a joker label, parsing
    succeeds exactly when the token contains a rank character from
    [A23456789TJQK], matched case-sensitively (upper case only), and a suit
    character from [cdhs], [CDHS] or the four suit glyphs; it then returns
    [13*suit_index + rank_index + 1] for the first rank character and the
    first suit character of the token, the suit letter counting the same
    in either case. Otherwise it raises [ValueError]. *)
Theorem read_card_rank_case_sensitive (t : pystr) :
  t ≠ [65] → t ≠ [66] →
  (∀ c, read_card t = Ok c ↔
        ∃ r s, first_match RANK_CLASS t r ∧ first_match SUIT_CLASS t s
               ∧ c = 13 * suit_no s + rank_no r + 1)
  ∧ ((∃ c, read_card t = Ok c) ↔
     Exists (fun x => x ∈ RANK_CLASS) t ∧ Exists (fun x => x ∈ SUIT_CLASS) t)
  ∧ ((∀ c, read_card t ≠ Ok c) → read_card t = Raise ValueError)
  ∧ (∀ s, s ∈ SUIT_CLASS → suit_no (Py.lower s) = suit_no s
                            ∧ suit_no (Py.upper s) = suit_no s)
  ∧ (∀ r, r ∈ RANK_CLASS → Py.upper r = r ∧ (Py.lower r = r ∨ Py.lower r ∉ RANK_CLASS)).
Proof.
  intros HA HB. pose proof (read_card_cases t HA HB) as H.
  split; [|split; [|split; [|split]]].
  - intros c. split.
    + intros E. rewrite E in H. destruct H as (r & s & ? & ? & ? & _).
      by exists r, s.
    + intros (r & s & Hr & Hs & ->).
      apply re_search_class_Some in Hr, Hs.
      destruct (read_card t) as [c'|e|] eqn:E; [|exfalso..].
      * destruct H as (r' & s' & Hr' & Hs' & -> & _).
        apply re_search_class_Some in Hr', Hs'. congruence.
      * destruct H as [_ [H|H]]; apply re_search_class_None in H; congruence.
      * done.
  - split.
    + intros [c E]. rewrite E in H.
      destruct H as (r & s & (i & Hi & ? & _) & (j & Hj & ? & _) & _).
      split; apply Exists_exists; eexists; (split; [|done]);
        by eapply list_elem_of_lookup_2.
    + intros [Hr Hs]. destruct (read_card t) as [c|e|]; [by exists c| |done].
      destruct H as [_ [H|H]]; exfalso.
      * apply Exists_exists in Hr as (x & Hx & ?).
        by apply (proj1 (Forall_forall _ _) H x Hx).
      * apply Exists_exists in Hs as (x & Hx & ?).
        by apply (proj1 (Forall_forall _ _) H x Hx).
  - intros Hno. destruct (read_card t) as [c|e|]; [by destruct (Hno c)| |done].
    by destruct H as [-> _].
  - intros s Hs. unfold SUIT_CLASS in Hs. enum_elem_of Hs; by split.
  - intros r Hr. unfold RANK_CLASS, VALUES in Hr.
    enum_elem_of Hr; (split; [done|]);
      first [ by left
            | right; apply (bool_decide_eq_false_1 _); vm_compute; reflexivity ].
Qed.

Lemma read_card_rank_case_sensitive_witness :
  read_card [84; 9824] = Ok 49.
Proof.
  apply (proj1 (read_card_rank_case_sensitive [84; 9824] ltac:(done) ltac:(done))).
  exists 84, 9824. split; [|split; [|reflexivity]].
  - exists 0%nat. split; [done|].
    split; [apply (bool_decide_eq_true_1 _); reflexivity|]. intros j y _ ?; lia.
  - exists 1%nat. split; [done|].
    split; [apply (bool_decide_eq_true_1 _); reflexivity|].
    intros [|j] y Hy ?; [|lia]. injection Hy as <-.
    apply (bool_decide_eq_false_1 _); reflexivity.
Defined.

(** ** Deck construction *)

Lemma remove_dups_length_le (l : list Z) :
  (length (remove_dups l) ≤ length l)%nat.
Proof. induction l as [|x l IH]; simpl; [done|]. case_match; simpl; lia. Qed.

(** [len(set(vals)) == len(vals)] says that [vals] has no duplicate. *)
Lemma remove_dups_length_NoDup (l : list Z) :
  length (remove_dups l) = length l ↔ NoDup l.
Proof.
  induction l as [|x l IH]; simpl; [split; [constructor|done]|].
  pose proof (remove_dups_length_le l). rewrite NoDup_cons.
  destruct (decide_rel elem_of x l) as [Hin|Hin]; simpl.
  - split; [lia|]. by intros [? _].
  - split.
    + intros E. split; [done|]. apply IH. lia.
    + intros [_ Hnd]. apply IH in Hnd. lia.
Qed.

Lemma read_cards_Ok tokens vals :
  read_cards tokens = Ok vals ↔
  Forall2 (fun t c => read_card t = Ok c) tokens vals.
Proof.
  revert vals. induction tokens as [|t ts IH]; intros vals; simpl.
  - split; [intros [= <-]; constructor | by intros ->%Forall2_nil_inv_l].
  - split.
    + intros H. inv_bind H. injection H as <-. constructor; [done|by apply IH].
    + intros (c & cs & Hc & Hcs & ->)%Forall2_cons_inv_l.
      rewrite Hc. cbn [mbind result_bind]. apply IH in Hcs. by rewrite Hcs.
Qed.

Lemma read_cards_total tokens :
  (∃ vals, read_cards tokens = Ok vals ∧ length vals = length tokens
           ∧ Forall (fun c => 1 ≤ c ≤ 54) vals)
  ∨ (read_cards tokens = Raise ValueError
     ∧ ∃ t, t ∈ tokens ∧ read_card t = Raise ValueError).
Proof.
  induction tokens as [|t ts IH]; simpl; [left; by exists []|].
  destruct (read_card_total t) as [(c & -> & Hc)| E].
  - cbn [mbind result_bind]. destruct IH as [(vals & -> & Hlen & Hall)|[-> Hex]].
    + left. exists (c :: vals). cbn [mbind result_bind]. simpl.
      split; [done|]. split; [lia|]. by constructor.
    + right. split; [done|]. destruct Hex as (t' & ? & ?). exists t'.
      split; [by right|done].
  - right. rewrite E. split; [done|]. exists t. split; [by left|done].
Qed.

Lemma read_cards_fail tokens t :
  t ∈ tokens → read_card t = Raise ValueError →
  read_cards tokens = Raise ValueError.
Proof.
  intros Hin Ht. destruct (read_cards_total tokens) as [(vals & E & _)|[? _]];
    [|done].
  apply read_cards_Ok in E. apply list_elem_of_lookup in Hin as [i Hi].
  destruct (Forall2_lookup_l _ _ _ _ _ E Hi) as (c & _ & Hc). congruence.
Qed.

(** A deck that [from_tokens] returns consists of the parsed codes and is
    a permutation of 1..54. *)
Lemma from_tokens_Ok tokens d :
  from_tokens tokens = Ok d ↔
  length tokens = 54%nat ∧ read_cards tokens = Ok d ∧ NoDup d.
Proof.
  unfold from_tokens. case_decide as Hlen.
  { split; [done|]. by intros [? _]. }
  destruct (read_cards_total tokens) as [(vals & -> & Hl & _)|[-> _]];
    cbn [mbind result_bind]; [|split; [done|by intros (_ & ? & _)]].
  rewrite <- Hlen, <- Hl. case_decide as Hdup.
  - split; [done|]. intros (_ & [= <-] & Hnd).
    by apply remove_dups_length_NoDup in Hnd.
  - apply remove_dups_length_NoDup in Hdup.
    unfold Deck_init. rewrite decide_False by lia. split.
    + by intros [= <-].
    + by intros (_ & [= <-] & _).
Qed.

Lemma from_tokens_valid tokens d : from_tokens tokens = Ok d → valid_deck d.
Proof.
  intros (Hlen & Hr & Hnd)%from_tokens_Ok.
  destruct (read_cards_total tokens) as [(vals & E & Hl & Hall)|[E _]];
    [|congruence].
  rewrite Hr in E. injection E as <-.
  apply valid_deck_of_distinct; [lia|done|]. by apply Forall_forall.
Qed.

(** The part of [Deck.from_input] that follows the filter and the split,
    on the tokens these leave: it raises if and only if their count differs
    from 54, or one of them does not parse to a card, or the parsed codes
    contain a duplicate; otherwise it returns exactly the parsed codes. *)
Lemma from_tokens_fails_iff (tokens : list pystr) :
  (from_tokens tokens = Raise ValueError ↔
     length tokens ≠ 54%nat
     ∨ (∃ t, t ∈ tokens ∧ read_card t = Raise ValueError)
     ∨ (∃ vals, read_cards tokens = Ok vals ∧ ¬ NoDup vals))
  ∧ (from_tokens tokens = Raise ValueError
     ∨ ∃ d, from_tokens tokens = Ok d ∧ read_cards tokens = Ok d
            ∧ valid_deck d).
Proof.
  assert (from_tokens tokens = Raise ValueError
          ∨ ∃ d, from_tokens tokens = Ok d) as Hcases.
  { unfold from_tokens. case_decide; [by left|].
    destruct (read_cards_total tokens) as [(vals & -> & _)|[-> _]];
      cbn [mbind result_bind]; [|by left].
    case_decide; [by left|]. unfold Deck_init. case_decide; [by left|].
    right. by eexists. }
  split.
  - split.
    + intros E. destruct (decide (length tokens = 54%nat)) as [Hlen|]; [|by left].
      right. destruct (read_cards_total tokens) as [(vals & Ev & _)|[_ Hex]];
        [|by left].
      right. exists vals. split; [done|]. intros Hnd.
      assert (from_tokens tokens = Ok vals) by (by apply from_tokens_Ok).
      congruence.
    + intros H. destruct Hcases as [?|[d E]]; [done|]. exfalso.
      apply from_tokens_Ok in E as (Hlen & Hr & Hnd).
      destruct H as [?|[(t & Hin & Ht)|(vals & Hv & ?)]]; [done| |].
      * pose proof (read_cards_fail tokens t Hin Ht). congruence.
      * congruence.
  - destruct Hcases as [?|[d E]]; [by left|]. right. exists d.
    split; [done|]. split; [by apply from_tokens_Ok in E as (_ & ? & _)|].
    by eapply from_tokens_valid.
Qed.

(** The tokens that [Deck.from_input] counts, in terms of the line it is
    given. *)
Lemma filter_nonempty_cons (t : pystr) ts :
  List.filter nonempty (t :: ts)
  = match t with
    | [] => List.filter nonempty ts
    | _ :: _ => t :: List.filter nonempty ts
    end.
Proof. by destruct t. Qed.

Lemma split_aux_space cur c s :
  Py.isspace c = true →
  Py.split_aux cur (c :: s)
  = match cur with
    | [] => Py.split_aux [] s
    | _ :: _ => cur :: Py.split_aux [] s
    end.
Proof. intros H. cbn [Py.split_aux]. by rewrite H. Qed.

Lemma split_aux_char cur c s :
  Py.isspace c = false → Py.split_aux cur (c :: s) = Py.split_aux (cur ++ [c]) s.
Proof. intros H. cbn [Py.split_aux]. by rewrite H. Qed.

Lemma split_aux_filter cur l :
  Py.split_aux (List.filter in_alphabet cur) (List.filter keep_char l)
  = List.filter nonempty (List.filter in_alphabet <$> Py.split_aux cur l).
Proof.
  revert cur. induction l as [|c l IH]; intros cur.
  - destruct cur as [|x cur]; [done|].
    change (Py.split_aux (x :: cur) []) with [x :: cur].
    change (List.filter in_alphabet <$> [x :: cur])
      with [List.filter in_alphabet (x :: cur)].
    change (List.filter keep_char []) with (@nil Z).
    generalize (List.filter in_alphabet (x :: cur)). by intros [|??].
  - change (List.filter keep_char (c :: l))
      with (if keep_char c then c :: List.filter keep_char l
            else List.filter keep_char l).
    unfold keep_char at 1. fold (in_alphabet c).
    destruct (Py.isspace c) eqn:Hs.
    + rewrite orb_true_r. rewrite !split_aux_space by done.
      pose proof (IH []) as IH0.
      change (List.filter in_alphabet []) with (@nil Z) in IH0.
      destruct cur as [|x cur]; [done|].
      rewrite fmap_cons, filter_nonempty_cons, <- IH0.
      generalize (List.filter in_alphabet (x :: cur)). by intros [|??].
    + rewrite orb_false_r. rewrite (split_aux_char cur) by done.
      rewrite <- IH, List.filter_app. cbn [List.filter].
      destruct (in_alphabet c).
      * by rewrite split_aux_char.
      * by rewrite app_nil_r.
Qed.

Lemma tokenize_given_tokens (inp : pystr) :
  tokenize inp
  = List.filter nonempty (List.filter in_alphabet <$> Py.split inp).
Proof. unfold tokenize, Py.split. apply (split_aux_filter []). Qed.

(** C6, as stated, fails at [Deck.from_input]: the line is filtered before
    its tokens are counted and parsed. With [A!] in the place of the first
    joker the line has 54 tokens, one of which [read_card] rejects, and
    with a 55th token [xyz] it has 55 tokens; both lines build the
    standard deck. *)
Lemma from_input_filters_before_counting :
  length (Py.split (str_join [32] (<[52%nat := [65; 33]]> default_tokens)))
  = 54%nat
  ∧ Py.split (str_join [32] (<[52%nat := [65; 33]]> default_tokens)) !! 52%nat
    = Some [65; 33]
  ∧ read_card [65; 33] = Raise ValueError
  ∧ from_input (str_join [32] (<[52%nat := [65; 33]]> default_tokens))
    = Ok (seqZ 1 54)
  ∧ length (Py.split (str_join [32] (default_tokens ++ [[120; 121; 122]])))
    = 55%nat
  ∧ from_input (str_join [32] (default_tokens ++ [[120; 121; 122]]))
    = Ok (seqZ 1 54).
Proof. repeat split; vm_compute; reflexivity. Qed.

(** C6 (amended). [Deck.from_input] works on the tokens of the line after
    its filter: the whitespace-separated tokens of the line with every
    character outside the deck alphabet deleted, the tokens left empty
    dropped. It raises [ValueError] (and returns no deck) if and only if
    the count of these tokens differs from 54, or one of them does not
    parse to a card, or the parsed codes contain a duplicate. There is no
    third outcome: the result is either that error or a deck made of
    exactly the parsed codes, which is then a permutation of 1..54. *)
Theorem from_input_fails_iff (inp : pystr) :
  tokenize inp
  = List.filter nonempty (List.filter in_alphabet <$> Py.split inp)
  ∧ (from_input inp = Raise ValueError ↔
       length (tokenize inp) ≠ 54%nat
       ∨ (∃ t, t ∈ tokenize inp ∧ read_card t = Raise ValueError)
       ∨ (∃ vals, read_cards (tokenize inp) = Ok vals ∧ ¬ NoDup vals))
  ∧ (from_input inp = Raise ValueError
     ∨ ∃ d, from_input inp = Ok d ∧ read_cards (tokenize inp) = Ok d
            ∧ valid_deck d).
Proof.
  split; [apply tokenize_given_tokens|]. unfold from_input.
  apply from_tokens_fails_iff.
Qed.

(** C10, as stated, fails: [Deck.__init__] accepts a 54-element list with
    duplicates, and one with codes outside 1..54. *)
Lemma Deck_init_accepts_duplicates :
  length (replicate 54 (1 : Z)) = 54%nat
  ∧ ¬ NoDup (replicate 54 (1 : Z))
  ∧ Deck_init (replicate 54 1) = Ok (replicate 54 1)
  ∧ Deck_init (seqZ 101 54) = Ok (seqZ 101 54).
Proof.
  split; [done|]. split; [|by split].
  intros H. apply NoDup_cons in H as [H _]. apply H. by left.
Qed.

(** C10 (amended). [Deck.__init__] validates the cardinality only: it
    succeeds exactly on 54-element lists, whatever their content, and
    raises [ValueError] otherwise. Uniqueness is validated by [from_input]
    alone, and [create] builds 1..54; so the decks returned by [create],
    by [from_input] and by [from_password] (on a passphrase of letters) are
    permutations of 1..54. *)
Theorem Deck_init_checks_length_only (cards : list Z) :
  (Deck_init cards = Ok cards ↔ length cards = 54%nat)
  ∧ (Deck_init cards = Raise ValueError ↔ length cards ≠ 54%nat)
  ∧ create = Ok (seqZ 1 54)
  ∧ (∀ inp d, from_input inp = Ok d → valid_deck d)
  ∧ (∀ pw d, Forall (fun c => is_letter c = true) pw →
             from_password pw = Ok d → valid_deck d).
Proof.
  split; [|split; [|split; [|split]]].
  - unfold Deck_init. case_decide; by split.
  - unfold Deck_init. by case_decide.
  - done.
  - intros inp d. apply from_tokens_valid.
  - intros pw d Hpw. unfold from_password.
    change create with (Ok (seqZ 1 54) : result deck). cbn [mbind result_bind].
    assert (valid_deck (seqZ 1 54)) as Hv by (unfold valid_deck; done).
    revert Hv. generalize (seqZ 1 54). clear cards.
    induction Hpw as [|c pw Hc Hpw IH]; intros d0 Hv; simpl.
    + by intros [= <-].
    + destruct (add_password_letter_shaped c d0 (valid_deck_shaped d0 Hv))
        as (d1 & -> & P1).
      { pose proof (upper_letter c Hc). lia. }
      cbn [mbind result_bind]. apply IH. by eapply valid_deck_Permutation.
Qed.

Lemma build_Ok seed pw σ self σ' :
  build seed pw σ = Ok (self, σ') →
  ∃ d, keyed_deck seed pw = Ok d ∧ (self ∉ dom σ) ∧ σ' !! self = Some d
       ∧ ∀ o, o ≠ self → σ' !! o = σ !! o.
Proof.
  unfold build, keyed_deck, new_deck, on_self. intros H.
  destruct (from_input seed) as [d0| |]; [|done..].
  cbn [mbind result_bind fst snd] in *. rewrite lookup_insert_eq in H.
  destruct (add_password pw d0) as [d| |]; [|done..].
  cbn [mbind result_bind fst snd] in H. injection H as <- <-.
  exists d. split; [done|]. split; [apply is_fresh|].
  split; [by rewrite lookup_insert_eq|].
  intros o Ho. by rewrite !lookup_insert_ne.
Qed.

Lemma on_self_Ok {A} (f : deck → result (A * deck)) self σ a σ' :
  on_self f self σ = Ok (a, σ') →
  ∃ d d', σ !! self = Some d ∧ f d = Ok (a, d') ∧ σ' = <[self := d']> σ.
Proof.
  unfold on_self. destruct (σ !! self) as [d|]; [|done].
  destruct (f d) as [[a0 d']| |] eqn:E; [|done..].
  cbn [mbind result_bind]. intros [= <- <-]. by exists d, d'.
Qed.

Lemma next_key_letter_fuel_irrelevant f1 f2 d r1 r2 :
  next_key_letter f1 d = Ok r1 → next_key_letter f2 d = Ok r2 → r1 = r2.
Proof.
  intros H1 H2.
  apply (next_key_letter_mono f1 (f1 `max` f2)) in H1; [|lia].
  apply (next_key_letter_mono f2 (f1 `max` f2)) in H2; [|lia].
  congruence.
Qed.

Lemma draw_fuel_irrelevant f1 f2 n g d r1 r2 :
  draw f1 n g d = Ok r1 → draw f2 n g d = Ok r2 → r1 = r2.
Proof.
  revert g d r1 r2. induction n as [|n IH]; intros g d r1 r2; simpl.
  { congruence. }
  intros H1 H2.
  apply bind_Ok in H1 as ([[k1 g1] d1] & Hg1 & H1).
  apply bind_Ok in H1 as ([ks1 e1] & Hd1 & H1).
  apply bind_Ok in H2 as ([[k2 g2] d2] & Hg2 & H2).
  apply bind_Ok in H2 as ([ks2 e2] & Hd2 & H2).
  apply gen_next_Ok in Hg1 as [Hk1 ->]. apply gen_next_Ok in Hg2 as [Hk2 ->].
  pose proof (next_key_letter_fuel_irrelevant _ _ _ _ _ Hk1 Hk2) as [= -> ->].
  pose proof (IH _ _ _ _ Hd1 Hd2) as [= -> ->]. congruence.
Qed.

(** C9. Two decks built from the same seed tokens and the same passphrase
    produce the same key-stream prefix of any length: the prefix that the
    first instance has produced is produced by the second one as well,
    although the first one has consumed its own deck meanwhile, and no
    other run of the second instance, whatever its loop budget, produces a
    different one. The key stream is a function of seed and passphrase. *)
Theorem key_stream_deterministic
    (seed pw : pystr) (len : Z) (n fuel : nat)
    (σ σ1 σ2 σ3 : store) (deck1 deck2 : nat) (ks1 : list Z) :
  build seed pw σ = Ok (deck1, σ1) →
  build seed pw σ1 = Ok (deck2, σ2) →
  key_stream_prefix fuel len n deck1 σ2 = Ok (ks1, σ3) →
  deck1 ≠ deck2
  ∧ (∃ σ4, key_stream_prefix fuel len n deck2 σ3 = Ok (ks1, σ4))
  ∧ (∀ fuel' ks2 σ4,
       key_stream_prefix fuel' len n deck2 σ3 = Ok (ks2, σ4) → ks2 = ks1)
  ∧ (∃ d e, keyed_deck seed pw = Ok d
            ∧ draw fuel n (get_key_stream len) d = Ok (ks1, e)).
Proof.
  intros H1 H2 H3.
  apply build_Ok in H1 as (d & Hd & Hfresh1 & Hl1 & Hframe1).
  apply build_Ok in H2 as (d' & Hd' & Hfresh2 & Hl2 & Hframe2).
  rewrite Hd in Hd'. injection Hd' as <-.
  assert (deck1 ≠ deck2) as Hne.
  { intros ->. apply Hfresh2. apply elem_of_dom. by eexists. }
  apply on_self_Ok in H3 as (d1 & e1 & Hs & Hdraw & ->).
  rewrite Hframe2, Hl1 in Hs by done. injection Hs as <-.
  assert ((<[deck1 := e1]> σ2 : store) !! deck2 = Some d) as Hl3
    by (by rewrite lookup_insert_ne).
  split; [done|]. split; [|split].
  - unfold key_stream_prefix, on_self. rewrite Hl3, Hdraw.
    cbn [mbind result_bind]. by eexists.
  - intros fuel' ks2 σ4 H4.
    apply on_self_Ok in H4 as (d2 & e2 & Hs2 & Hdraw2 & _).
    rewrite Hl3 in Hs2. injection Hs2 as <-.
    by pose proof (draw_fuel_irrelevant _ _ _ _ _ _ _ Hdraw2 Hdraw) as [= -> _].
  - by exists d, e1.
Qed.

Lemma key_stream_deterministic_witness :
  ∃ (deck1 deck2 : nat) (ks1 : list Z) (σ3 σ4 : store),
    deck1 ≠ deck2
    ∧ ks1 = [72; 83; 71]
    ∧ key_stream_prefix 4 0 3 deck2 σ3 = Ok (ks1, σ4).
Proof.
  edestruct (key_stream_deterministic
               (mjoin ((fun t => t ++ [32]) <$> default_tokens))
               [102; 111; 111] 0 3 4 ∅)
    as (Hne & [σ4 Hsame] & _ & _);
    [vm_compute; reflexivity | vm_compute; reflexivity
    | vm_compute; reflexivity |].
  eexists _, _, _, _, σ4. split; [exact Hne|]. split; [|exact Hsame].
  reflexivity.
Defined.


(** * Further properties of the source *)

(** ** The steps of a round, one by one *)

Lemma index_from_app_first x l1 l2 k :
  x ∉ l1 → Py.index_from x (l1 ++ x :: l2) k = Ok (k + Z.of_nat (length l1)).
Proof.
  revert k. induction l1 as [|y l1 IH]; intros k Hx; simpl.
  - rewrite decide_True by done. f_equal. lia.
  - apply not_elem_of_cons in Hx as [? ?]. rewrite decide_False by done.
    rewrite IH by done. f_equal. lia.
Qed.

Lemma search_app_first x (l1 l2 : deck) :
  x ∉ l1 → search x (l1 ++ x :: l2) = Ok (Z.of_nat (length l1)).
Proof.
  intros H. unfold search, Py.index. by rewrite index_from_app_first.
Qed.

Lemma insert_middle {A} (l1 l2 : list A) (a b : A) :
  <[length l1 := a]> (l1 ++ b :: l2) = l1 ++ a :: l2.
Proof. induction l1 as [|x l1 IH]; simpl; [done|]. by rewrite IH. Qed.

Lemma swap_down_absent code (d : deck) :
  d ≠ [] → code ∉ d → swap_down code d = Raise ValueError.
Proof.
  intros Hne Hin. destruct (exists_last Hne) as (d0 & z & ->).
  unfold swap_down. rewrite getitem_last. cbn [mbind result_bind].
  rewrite decide_False.
  - cbn [mbind result_bind]. unfold search, Py.index.
    by rewrite index_from_not_elem_of.
  - intros ->. apply Hin. apply elem_of_app. right. by left.
Qed.

(** The joker is not the bottom card: it changes places with the card
    below it. *)
Lemma swap_down_inner code (l1 l2 : deck) y :
  length (l1 ++ code :: y :: l2) = 54%nat → code ∉ l1 →
  last (y :: l2) ≠ Some code →
  swap_down code (l1 ++ code :: y :: l2) = Ok (l1 ++ y :: code :: l2).
Proof.
  intros Hlen Hl1 Hlast. unfold swap_down.
  assert (∃ z, last (l1 ++ code :: y :: l2) = Some z ∧ z ≠ code) as (z & Hz & Hzc).
  { rewrite last_app_cons, last_cons_cons.
    destruct (last (y :: l2)) as [z|] eqn:E; [|by apply last_None in E].
    exists z. split; [done|]. congruence. }
  assert (Py.getitem (l1 ++ code :: y :: l2) (-1) = Ok z) as ->.
  { destruct (snoc_of_length _ 53 Hlen) as (d0 & z' & E & _).
    rewrite E in Hz |- *. rewrite last_snoc in Hz. injection Hz as ->.
    apply getitem_last. }
  cbn [mbind result_bind]. rewrite decide_False by done.
  cbn [mbind result_bind]. rewrite search_app_first by done.
  cbn [mbind result_bind].
  rewrite length_app in Hlen. simpl in Hlen.
  rewrite Z.mod_small by lia.
  replace (Z.of_nat (length l1) + 1) with (Z.of_nat (S (length l1))) by lia.
  rewrite (getitem_nonneg _ (S (length l1)) y).
  2:{ rewrite lookup_app_r by lia. by replace (S (length l1) - length l1)%nat with 1%nat by lia. }
  cbn [mbind result_bind].
  rewrite (getitem_nonneg _ (length l1) code).
  2:{ by rewrite lookup_app_r, Nat.sub_diag by lia. }
  cbn [mbind result_bind].
  rewrite setitem_nonneg by (rewrite length_app; simpl; lia).
  cbn [mbind result_bind]. rewrite insert_middle.
  rewrite setitem_nonneg by (rewrite length_app; simpl; lia).
  f_equal. change (l1 ++ y :: y :: l2) with (l1 ++ [y] ++ y :: l2).
  rewrite app_assoc.
  replace (S (length l1)) with (length (l1 ++ [y]))
    by (rewrite length_app; simpl; lia).
  rewrite insert_middle. by rewrite <- app_assoc.
Qed.

(** The joker is the bottom card: it goes just below the top card. *)
Lemma swap_down_bottom code x (l : deck) :
  length (x :: l ++ [code]) = 54%nat → code ∉ x :: l →
  swap_down code (x :: l ++ [code]) = Ok (x :: code :: l).
Proof.
  intros Hlen Hin. unfold swap_down.
  change (x :: l ++ [code]) with ((x :: l) ++ [code]).
  rewrite getitem_last. cbn [mbind result_bind].
  rewrite decide_True by done. rewrite cycle_shift_snoc.
  cbn [mbind result_bind].
  pose proof (search_app_first code [] (x :: l) (not_elem_of_nil _)) as Hs.
  simpl in Hs. rewrite Hs. cbn [mbind result_bind]. simpl in Hlen.
  change ((Z.of_nat 0 + 1) mod 54) with (Z.of_nat 1).
  rewrite (getitem_nonneg _ 1 x) by done. cbn [mbind result_bind].
  rewrite (getitem_nonneg _ 0 code) by done. cbn [mbind result_bind].
  rewrite setitem_nonneg by (simpl; lia). cbn [mbind result_bind].
  by rewrite setitem_nonneg by (simpl; lia).
Qed.

(** X1. [swap_down] moves the named card one place down: when the card is
    not at the bottom it changes places with the card below it, and when
    it is the bottom card it ends up just below the top card, the cards
    between keeping their order. *)
Theorem swap_down_moves_one_place (code : Z) (d : deck) :
  length d = 54%nat → NoDup d → code ∈ d →
  (∃ l1 y l2, d = l1 ++ code :: y :: l2
              ∧ swap_down code d = Ok (l1 ++ y :: code :: l2))
  ∨ (∃ x l, d = x :: l ++ [code] ∧ swap_down code d = Ok (x :: code :: l)).
Proof.
  intros Hlen Hnd Hin.
  apply list_elem_of_split in Hin as (l1 & l2 & ->).
  apply NoDup_app in Hnd as (_ & Hl1 & Hnd).
  apply NoDup_cons in Hnd as [Hl2 _].
  assert (code ∉ l1) as Hnl1 by (intros H; apply (Hl1 _ H); by left).
  destruct l2 as [|y l2].
  - right. destruct l1 as [|x l]; [done|]. exists x, l. split; [done|].
    by apply swap_down_bottom.
  - left. exists l1, y, l2. split; [done|]. apply swap_down_inner; [done..|].
    intros H. apply Hl2. by eapply last_Some_elem_of.
Qed.

Lemma swap_down_moves_one_place_witness :
  (∃ l1 y l2, seqZ 1 54 = l1 ++ 54 :: y :: l2
              ∧ swap_down 54 (seqZ 1 54) = Ok (l1 ++ y :: 54 :: l2))
  ∨ (∃ x l, seqZ 1 54 = x :: l ++ [54]
            ∧ swap_down 54 (seqZ 1 54) = Ok (x :: 54 :: l)).
Proof.
  apply swap_down_moves_one_place.
  - reflexivity.
  - apply NoDup_seqZ.
  - apply elem_of_seqZ. lia.
Defined.

Lemma jokers_apart top mid bot (j1 j2 : Z) :
  NoDup (top ++ j1 :: mid ++ j2 :: bot) →
  j1 ≠ j2 ∧ ((j1 ∉ top) ∧ (j2 ∉ top)) ∧ ((j1 ∉ mid) ∧ (j2 ∉ mid))
  ∧ ((j1 ∉ bot) ∧ (j2 ∉ bot)).
Proof.
  intros H.
  assert (top ++ j1 :: mid ++ j2 :: bot ≡ₚ j1 :: j2 :: top ++ mid ++ bot) as P.
  { rewrite <- Permutation_middle. apply perm_skip.
    rewrite app_assoc, <- Permutation_middle. by rewrite <- app_assoc. }
  rewrite P in H. apply NoDup_cons in H as [H1 H]. apply NoDup_cons in H as [H2 _].
  apply not_elem_of_cons in H1 as [? H1].
  rewrite !not_elem_of_app in H1, H2.
  destruct H1 as (? & ? & ?), H2 as (? & ? & ?). done.
Qed.

Lemma triple_cut_blocks (top mid bot : deck) (j1 j2 : Z) :
  (j1 = 53 ∧ j2 = 54) ∨ (j1 = 54 ∧ j2 = 53) →
  53 ∉ top → 54 ∉ top → 53 ∉ mid → 54 ∉ mid →
  triple_cut (top ++ j1 :: mid ++ j2 :: bot) = Ok (bot ++ j1 :: mid ++ j2 :: top).
Proof.
  intros Hj Ht3 Ht4 Hm3 Hm4. unfold triple_cut.
  set (d := top ++ j1 :: mid ++ j2 :: bot).
  assert (d = (top ++ j1 :: mid) ++ j2 :: bot) as Ed
    by (subst d; by rewrite <- app_assoc).
  assert (search j1 d = Ok (Z.of_nat (length top))) as E1.
  { subst d. apply search_app_first. destruct Hj as [[-> _]|[-> _]]; done. }
  assert (search j2 d = Ok (Z.of_nat (length top + S (length mid)))) as E2.
  { rewrite Ed, search_app_first; [by rewrite length_app|].
    rewrite not_elem_of_app, not_elem_of_cons.
    destruct Hj as [[-> ->]|[-> ->]]; done. }
  assert (length d = (length top + S (length mid) + S (length bot))%nat) as Hlen.
  { subst d. rewrite !length_app. simpl. rewrite length_app. simpl. lia. }
  assert (∃ a b, search 53 d = Ok a ∧ search 54 d = Ok b
                 ∧ a `min` b = Z.of_nat (length top)
                 ∧ a `max` b + 1 = Z.of_nat (length top + S (S (length mid))))
    as (a & b & -> & -> & Hmin & Hmax).
  { destruct Hj as [[-> ->]|[-> ->]]; eexists _, _;
      (split; [done|]); (split; [done|]); lia. }
  cbn [mbind result_bind]. rewrite Hmin, Hmax.
  unfold Py.slice_to, Py.slice, Py.slice_from.
  rewrite !bound_nonneg by lia. f_equal.
  assert (d = (top ++ j1 :: mid ++ [j2]) ++ bot) as Ed'.
  { subst d. rewrite <- !app_assoc. simpl. by rewrite <- app_assoc. }
  assert (length (top ++ j1 :: mid ++ [j2]) = (length top + S (S (length mid)))%nat)
    as Hl by (rewrite length_app; simpl; rewrite length_app; simpl; lia).
  rewrite Ed' at 1. rewrite drop_app_length' by done. f_equal.
  rewrite Ed' at 1. rewrite take_app_length' by done.
  rewrite drop_app_length. simpl. f_equal. rewrite <- app_assoc. simpl.
  f_equal. f_equal. subst d. by rewrite take_app_length.
Qed.

Lemma jokers_split (d : deck) :
  53 ∈ d → 54 ∈ d →
  ∃ top mid bot j1 j2,
    d = top ++ j1 :: mid ++ j2 :: bot
    ∧ ((j1 = 53 ∧ j2 = 54) ∨ (j1 = 54 ∧ j2 = 53)).
Proof.
  intros (a & b & ->)%list_elem_of_split H4.
  apply elem_of_app in H4 as [H4|H4].
  - apply list_elem_of_split in H4 as (t & m & ->).
    exists t, m, b, 54, 53. split; [by rewrite <- app_assoc|by right].
  - apply elem_of_cons in H4 as [?|H4]; [done|].
    apply list_elem_of_split in H4 as (m & c & ->).
    exists a, m, c, 53, 54. split; [done|by left].
Qed.

(** X2. On a deck without duplicates that holds both jokers, the triple
    cut exchanges the block above the first joker with the block below the
    second joker and leaves the jokers and the cards between them in
    place; doing it twice gives the deck back. *)
Theorem triple_cut_swaps_outer_blocks (d : deck) :
  NoDup d → 53 ∈ d → 54 ∈ d →
  ∃ top mid bot j1 j2,
    d = top ++ j1 :: mid ++ j2 :: bot
    ∧ ((j1 = 53 ∧ j2 = 54) ∨ (j1 = 54 ∧ j2 = 53))
    ∧ triple_cut d = Ok (bot ++ j1 :: mid ++ j2 :: top)
    ∧ triple_cut (bot ++ j1 :: mid ++ j2 :: top) = Ok d.
Proof.
  intros Hnd H3 H4.
  destruct (jokers_split d H3 H4) as (top & mid & bot & j1 & j2 & -> & Hj).
  destruct (jokers_apart _ _ _ _ _ Hnd) as (_ & [? ?] & [? ?] & [? ?]).
  exists top, mid, bot, j1, j2. split; [done|]. split; [done|].
  split; apply triple_cut_blocks; try done;
    destruct Hj as [[-> ->]|[-> ->]]; done.
Qed.

Lemma triple_cut_swaps_outer_blocks_witness :
  ∃ top mid bot j1 j2,
    [1; 53; 2; 3; 54; 4; 5] = top ++ j1 :: mid ++ j2 :: bot
    ∧ ((j1 = 53 ∧ j2 = 54) ∨ (j1 = 54 ∧ j2 = 53))
    ∧ triple_cut [1; 53; 2; 3; 54; 4; 5] = Ok (bot ++ j1 :: mid ++ j2 :: top)
    ∧ triple_cut (bot ++ j1 :: mid ++ j2 :: top) = Ok [1; 53; 2; 3; 54; 4; 5].
Proof.
  apply triple_cut_swaps_outer_blocks.
  - apply (bool_decide_eq_true_1 _). reflexivity.
  - apply (bool_decide_eq_true_1 _). reflexivity.
  - apply (bool_decide_eq_true_1 _). reflexivity.
Defined.

(** X3. On a 54-card deck a count cut of size [n] in 0..53 is undone by the
    count cut of size [53 - n]. *)
Theorem count_cut_undone_by_complement (d : deck) (n : Z) :
  length d = 54%nat → 0 ≤ n ≤ 53 →
  ∃ d', count_cut n d = Ok d' ∧ count_cut (53 - n) d' = Ok d.
Proof.
  intros Hlen Hn.
  destruct (snoc_of_length d 53 Hlen) as (d0 & z & -> & Hlen0).
  rewrite count_cut_snoc by lia. eexists. split; [done|].
  rewrite Hlen0.
  replace (Py.bound 54 n) with (Z.to_nat n)
    by (rewrite <- (Z2Nat.id n) at 2 by lia; rewrite bound_nonneg; lia).
  rewrite app_assoc.
  assert (length (drop (Z.to_nat n) d0) = Z.to_nat (53 - n)) as Hd
    by (rewrite length_drop; lia).
  rewrite count_cut_snoc
    by (rewrite length_app, length_drop, length_take; lia).
  rewrite length_app, length_drop, length_take.
  replace (length d0 - Z.to_nat n + Z.to_nat n `min` length d0)%nat
    with 53%nat by lia.
  replace (Py.bound 54 (53 - n)) with (Z.to_nat (53 - n))
    by (rewrite <- (Z2Nat.id (53 - n)) at 2 by lia; rewrite bound_nonneg; lia).
  rewrite drop_app_length', take_app_length' by done.
  by rewrite app_assoc, take_drop.
Qed.

Lemma count_cut_undone_by_complement_witness :
  ∃ d', count_cut 7 (seqZ 1 54) = Ok d' ∧ count_cut (53 - 7) d' = Ok (seqZ 1 54).
Proof. apply count_cut_undone_by_complement; [reflexivity | lia]. Defined.

(** X4. Outside 0..53 the count cut does not fail. A size of at least the
    deck length leaves the cards in place and appends a second copy of the
    bottom card, so the deck grows by one card; a negative size counts
    from the bottom like a Python slice bound. Only the empty deck raises
    ([IndexError]). *)
Theorem count_cut_outside_range (d0 : deck) (z n : Z) :
  count_cut n [] = Raise IndexError
  ∧ (Z.of_nat (length (d0 ++ [z])) ≤ n →
     count_cut n (d0 ++ [z]) = Ok ((d0 ++ [z]) ++ [z]))
  ∧ (n < 0 →
     count_cut n (d0 ++ [z])
     = count_cut (Z.max 0 (n + Z.of_nat (length (d0 ++ [z])))) (d0 ++ [z])).
Proof.
  split; [done|]. split.
  - intros Hn. unfold count_cut. rewrite getitem_last. cbn [mbind result_bind].
    unfold Py.slice, Py.slice_to.
    assert (Py.bound (length (d0 ++ [z])) n = length (d0 ++ [z])) as ->
      by (unfold Py.bound; destruct (Z.ltb_spec n 0); lia).
    rewrite drop_ge by (rewrite length_take; lia).
    by rewrite take_ge by lia.
  - intros Hn. unfold count_cut, Py.slice, Py.slice_to.
    set (len := length (d0 ++ [z])).
    assert (Py.bound len n = Py.bound len (Z.max 0 (n + Z.of_nat len))) as ->;
      [|done].
    unfold Py.bound. destruct (Z.ltb_spec n 0); [|lia].
    destruct (Z.ltb_spec (Z.max 0 (n + Z.of_nat len)) 0); lia.
Qed.

Lemma count_cut_outside_range_witness :
  count_cut 54 (seqZ 1 54) = Ok (seqZ 1 54 ++ [54])
  ∧ count_cut (-2) (seqZ 1 54) = count_cut 52 (seqZ 1 54).
Proof.
  destruct (count_cut_outside_range (seqZ 1 53) 54 54) as (_ & H & _).
  destruct (count_cut_outside_range (seqZ 1 53) 54 (-2)) as (_ & _ & H').
  split; [apply H; vm_compute; discriminate | apply H'; lia].
Defined.

(** X5. A round needs both jokers: on a 54-card list, [shift_cut] returns a
    deck exactly when 53 and 54 both occur in it, and raises [ValueError]
    exactly when one of them is missing, as [next_key_letter] then does at
    its first round. *)
Theorem shift_cut_needs_both_jokers (d : deck) :
  length d = 54%nat →
  ((∃ d', shift_cut d = Ok d') ↔ 53 ∈ d ∧ 54 ∈ d)
  ∧ (shift_cut d = Raise ValueError ↔ 53 ∉ d ∨ 54 ∉ d)
  ∧ (53 ∉ d ∨ 54 ∉ d → ∀ n, next_key_letter (S n) d = Raise ValueError).
Proof.
  intros Hlen.
  assert (d ≠ []) as Hne by (by intros ->).
  assert (53 ∉ d ∨ 54 ∉ d → shift_cut d = Raise ValueError) as Hfail.
  { intros H. unfold shift_cut, JOKER_A, JOKER_B.
    destruct (decide (53 ∈ d)) as [H3|H3].
    - destruct H as [?|H4]; [done|].
      destruct (swap_down_Permutation 53 d Hlen H3) as (d1 & -> & P1).
      cbn [mbind result_bind]. rewrite swap_down_absent; [done| |by rewrite P1].
      intros ->. by apply Permutation_nil_l in P1.
    - by rewrite swap_down_absent. }
  assert (53 ∈ d ∧ 54 ∈ d → ∃ d', shift_cut d = Ok d') as Hok.
  { intros [H3 H4]. destruct (shift_cut_Permutation d Hlen H3 H4) as (d' & ? & _).
    by exists d'. }
  split; [|split].
  - split; [|done]. intros [d' E].
    destruct (decide (53 ∈ d)), (decide (54 ∈ d)); try done;
      rewrite Hfail in E by auto; done.
  - split; [|done]. intros E.
    destruct (decide (53 ∈ d)), (decide (54 ∈ d)); auto.
    destruct Hok as [d' E']; [done|]. congruence.
  - intros H n. rewrite next_key_letter_S. by rewrite Hfail.
Qed.

Lemma shift_cut_needs_both_jokers_witness :
  shift_cut (replicate 54 1) = Raise ValueError.
Proof.
  apply (proj1 (proj2 (shift_cut_needs_both_jokers (replicate 54 1) eq_refl))).
  left. apply (bool_decide_eq_false_1 _). reflexivity.
Defined.

(** ** Writing and reading cards *)

Lemma getitem_out_of_range {A} (l : list A) (i : Z) :
  i < - Z.of_nat (length l) ∨ Z.of_nat (length l) ≤ i →
  Py.getitem l i = Raise IndexError.
Proof.
  intros Hi. unfold Py.getitem.
  destruct (Z.ltb_spec i 0).
  - destruct (Z.ltb_spec (i + Z.of_nat (length l)) 0); [done|lia].
  - destruct (Z.ltb_spec i 0); [lia|].
    rewrite lookup_ge_None_2; [done|lia].
Qed.

Lemma getitem_negative {A} (l : list A) (i : Z) :
  - Z.of_nat (length l) ≤ i < 0 →
  Py.getitem l i = Py.getitem l (i + Z.of_nat (length l)).
Proof.
  intros Hi. unfold Py.getitem.
  destruct (Z.ltb_spec i 0); [|lia].
  destruct (Z.ltb_spec (i + Z.of_nat (length l)) 0) as [?|_]; [lia|].
  destruct (Z.ltb_spec (i + Z.of_nat (length l)) 0) as [?|_]; [lia|].
  done.
Qed.

Lemma card_round_trip_all (unicode color : bool) suits :
  print_state_suits unicode color = Ok suits →
  ∀ c, 1 ≤ c ≤ 54 → card_round_trip_ok suits c = true.
Proof.
  intros Hs c Hc.
  assert (forallb (card_round_trip_ok suits) (seqZ 1 54) = true) as H.
  { destruct unicode, color; injection Hs as <-; vm_compute; reflexivity. }
  rewrite forallb_forall in H. apply H. apply list_elem_of_In, elem_of_seqZ. lia.
Qed.

Lemma card_round_trip_ok_spec suits c :
  card_round_trip_ok suits c = true →
  ∃ t, card_writer c suits = Ok t
       ∧ read_card t = Ok c
       ∧ read_card (List.filter keep_char t) = Ok c
       ∧ List.filter keep_char t ≠ []
       ∧ Forall (fun x => Py.isspace x = false) (List.filter keep_char t).
Proof.
  unfold card_round_trip_ok. destruct (card_writer c suits) as [t| |]; [|done..].
  destruct (read_card t) as [c1| |] eqn:E1; [|done..].
  destruct (read_card (List.filter keep_char t)) as [c2| |] eqn:E2; [|done..].
  rewrite !andb_true_iff. intros [[[H1 H2] H3] H4].
  apply Z.eqb_eq in H1 as ->. apply Z.eqb_eq in H2 as ->.
  exists t. split; [done|]. split; [done|]. split; [done|]. split.
  - apply negb_true_iff, bool_decide_eq_false in H3. done.
  - apply Forall_forall. intros x Hx. rewrite forallb_forall in H4.
    apply negb_true_iff, H4. by apply list_elem_of_In.
Qed.

(** X6. Round trip of the card codec: for every code in 1..54 and each of
    the suit alphabets that [print_state] can choose (ASCII or glyphs,
    plain or with colour markup; the plain ASCII one is the default of
    [card_writer]), [card_writer] returns a token that [read_card] parses
    back to the same code. In particular [card_writer] is injective on
    1..54. *)
Theorem read_card_card_writer (unicode color : bool) (suits : list pystr) (c : Z) :
  print_state_suits unicode color = Ok suits → 1 ≤ c ≤ 54 →
  ∃ t, card_writer c suits = Ok t ∧ read_card t = Ok c
       ∧ ∀ c', 1 ≤ c' ≤ 54 → card_writer c' suits = Ok t → c' = c.
Proof.
  intros Hs Hc.
  destruct (card_round_trip_ok_spec suits c
              (card_round_trip_all unicode color suits Hs c Hc))
    as (t & Ht & Hr & _).
  exists t. split; [done|]. split; [done|]. intros c' Hc' Ht'.
  destruct (card_round_trip_ok_spec suits c'
              (card_round_trip_all unicode color suits Hs c' Hc'))
    as (t' & Ht2 & Hr' & _).
  congruence.
Qed.

Lemma read_card_card_writer_witness :
  ∃ t, card_writer 27 (chars SUITS) = Ok t ∧ read_card t = Ok 27
       ∧ ∀ c', 1 ≤ c' ≤ 54 → card_writer c' (chars SUITS) = Ok t → c' = 27.
Proof.
  apply (read_card_card_writer false false); [reflexivity | lia].
Defined.

(** X7. [card_writer] outside 1..54, for any alphabet of four suits: a
    code of 55 or more, or of -52 or less, raises [IndexError]; a code in
    -51..0 does not fail but gives the token of [code + 52], because the
    negative quotient indexes the suits from the end. *)
Theorem card_writer_outside_range (code : Z) (suits : list pystr) :
  length suits = 4%nat →
  (55 ≤ code ∨ code ≤ -52 → card_writer code suits = Raise IndexError)
  ∧ (-51 ≤ code ≤ 0 → card_writer code suits = card_writer (code + 52) suits).
Proof.
  intros Hlen.
  assert (∀ x, ∃ r, Py.getitem VALUES ((x - 1) mod 13) = Ok r) as Hrank.
  { intros x. destruct (getitem_in_range VALUES ((x - 1) mod 13)) as (r & ? & _).
    - pose proof (Z.mod_pos_bound (x - 1) 13 ltac:(lia)).
      change (Z.of_nat (length VALUES)) with 13. lia.
    - by exists r. }
  split.
  - intros Hc. unfold card_writer.
    rewrite !decide_False by lia. destruct (Hrank code) as [r ->].
    cbn [mbind result_bind]. rewrite getitem_out_of_range; [done|].
    rewrite Hlen. change (Z.of_nat 4) with 4.
    destruct Hc as [Hc|Hc].
    + right. apply Z.div_le_lower_bound; lia.
    + left. apply Z.div_lt_upper_bound; lia.
  - intros Hc. unfold card_writer. rewrite !decide_False by lia.
    replace (code + 52 - 1) with (code - 1 + 4 * 13) by lia.
    rewrite Z_mod_plus_full, Z.div_add by lia.
    destruct (Hrank code) as [r ->]. cbn [mbind result_bind].
    rewrite (getitem_negative suits); [by rewrite Hlen|].
    rewrite Hlen. change (Z.of_nat 4) with 4. split.
    + apply Z.div_le_lower_bound; lia.
    + apply Z.div_lt_upper_bound; lia.
Qed.

Lemma card_writer_outside_range_witness :
  card_writer 0 (chars SUITS) = card_writer 52 (chars SUITS)
  ∧ card_writer 55 (chars SUITS) = Raise IndexError.
Proof.
  destruct (card_writer_outside_range 0 (chars SUITS) eq_refl) as [_ H0].
  destruct (card_writer_outside_range 55 (chars SUITS) eq_refl) as [H55 _].
  split; [apply H0; lia | apply H55; lia].
Defined.

(** ** Printing a deck and reading it back *)

Lemma split_aux_word cur p rest :
  Forall (fun x => Py.isspace x = false) p →
  Py.split_aux cur (p ++ rest) = Py.split_aux (cur ++ p) rest.
Proof.
  intros Hp. revert cur. induction Hp as [|x p Hx Hp IH]; intros cur; simpl.
  - by rewrite app_nil_r.
  - rewrite Hx, IH. by rewrite <- app_assoc.
Qed.

(** Splitting undoes joining with single spaces, for words that are not
    empty and hold no whitespace. *)
Lemma split_str_join (ps : list pystr) :
  Forall (fun p => p ≠ [] ∧ Forall (fun x => Py.isspace x = false) p) ps →
  Py.split (str_join [32] ps) = ps.
Proof.
  unfold Py.split. induction 1 as [|p ps [Hne Hp] Hps IH]; [done|].
  destruct ps as [|q ps].
  - simpl. rewrite <- (app_nil_r p) at 1. rewrite split_aux_word by done.
    simpl. by destruct p.
  - change (str_join [32] (p :: q :: ps))
      with (p ++ 32 :: str_join [32] (q :: ps)).
    rewrite split_aux_word by done. cbn [Py.split_aux app].
    change (Py.isspace 32) with true. cbv iota. rewrite IH. by destruct p.
Qed.

Lemma filter_str_join (ts : list pystr) :
  List.filter keep_char (str_join [32] ts)
  = str_join [32] (List.filter keep_char <$> ts).
Proof.
  induction ts as [|t [|t' ts] IH]; [done..|].
  change (str_join [32] (t :: t' :: ts))
    with (t ++ 32 :: str_join [32] (t' :: ts)).
  rewrite List.filter_app. cbn [List.filter].
  change (keep_char 32) with true. cbv iota. by rewrite IH.
Qed.

Lemma write_cards_read_back (unicode color : bool) suits (d : deck) :
  print_state_suits unicode color = Ok suits →
  Forall (fun c => 1 ≤ c ≤ 54) d →
  ∃ ts, write_cards suits d = Ok ts
        ∧ length ts = length d
        ∧ read_cards (List.filter keep_char <$> ts) = Ok d
        ∧ Forall (fun p => p ≠ [] ∧ Forall (fun x => Py.isspace x = false) p)
            (List.filter keep_char <$> ts).
Proof.
  intros Hs. induction 1 as [|c d Hc Hd IH]; [by exists []|].
  destruct IH as (ts & Hw & Hlen & Hr & Hall).
  destruct (card_round_trip_ok_spec suits c
              (card_round_trip_all unicode color suits Hs c Hc))
    as (t & Ht & _ & Hrt & Hne & Hnosp).
  exists (t :: ts). cbn [write_cards]. rewrite Ht. cbn [mbind result_bind].
  rewrite Hw. cbn [mbind result_bind]. split; [done|].
  split; [simpl; lia|]. rewrite fmap_cons. cbn [read_cards].
  rewrite Hrt. cbn [mbind result_bind]. rewrite Hr. split; [done|].
  by constructor.
Qed.

(** X8. What [print_state] prints can be fed back: for every permutation
    of 1..54 and every choice of [unicode] and [color], the printed line is
    accepted by [Deck.from_input], which returns the same deck (of the
    colour markup the filter of [from_input] leaves the digit 3 in the
    token, after the rank; [read_card] takes the first rank character). *)
Theorem from_input_print_state (unicode color : bool) (d : deck) :
  valid_deck d →
  ∃ line, print_state true unicode color d = Ok (Some line)
          ∧ from_input line = Ok d.
Proof.
  intros Hv.
  assert (∃ suits, print_state_suits unicode color = Ok suits) as [suits Hs]
    by (destruct unicode, color; by eexists).
  destruct (write_cards_read_back unicode color suits d Hs)
    as (ts & Hw & Hlen & Hr & Hall).
  { apply Forall_forall. intros c Hc. by apply (valid_deck_elem_of d c Hv). }
  exists (str_join [32] ts). unfold print_state. simpl negb. cbv iota.
  rewrite Hs. cbn [mbind result_bind]. rewrite Hw. split; [done|].
  unfold from_input, tokenize. rewrite filter_str_join, split_str_join by done.
  apply from_tokens_Ok. split; [|split; [done|by apply valid_deck_NoDup]].
  rewrite length_fmap. etrans; [exact Hlen|]. by apply valid_deck_length.
Qed.

Lemma from_input_print_state_witness :
  ∃ line, print_state true true true (seqZ 1 54) = Ok (Some line)
          ∧ from_input line = Ok (seqZ 1 54).
Proof. apply from_input_print_state. unfold valid_deck. reflexivity. Defined.

(** ** Grouping *)

Lemma slice_nonneg {A} (t : list A) (lo hi : Z) :
  0 ≤ lo → 0 ≤ hi →
  Py.slice t lo hi = drop (Z.to_nat lo) (take (Z.to_nat hi) t).
Proof.
  intros Hlo Hhi. unfold Py.slice, Py.bound.
  destruct (Z.ltb_spec lo 0); [lia|]. destruct (Z.ltb_spec hi 0); [lia|].
  assert (take (Z.to_nat (hi `min` Z.of_nat (length t))) t = take (Z.to_nat hi) t)
    as ->.
  { destruct (Z.le_gt_cases hi (Z.of_nat (length t))).
    - by rewrite Z.min_l by lia.
    - rewrite Z.min_r, Nat2Z.id by lia. by rewrite !take_ge by lia. }
  destruct (Z.le_gt_cases lo (Z.of_nat (length t))).
  - by rewrite Z.min_l by lia.
  - rewrite Z.min_r, Nat2Z.id by lia.
    by rewrite !drop_ge by (rewrite length_take; lia).
Qed.

(** The pieces cut by consecutive slices of width [s] rebuild the text;
    every piece is full except possibly the last, and none is empty. *)
Lemma chunks_rebuild {A} (s : nat) (m : nat) (t : list A) :
  (0 < s)%nat → (length t ≤ m * s)%nat →
  (m = 0%nat ∨ ((m - 1) * s < length t)%nat) →
  let parts := (fun k => take s (drop (k * s) t)) <$> seq 0 m in
  concat parts = t
  ∧ Forall (fun p => (0 < length p ≤ s)%nat) parts
  ∧ ∀ (i : nat) p, parts !! i = Some p → (S i < length parts)%nat → length p = s.
Proof.
  intros Hs. revert t. induction m as [|m IH]; intros t Hlen Hlast; simpl.
  { destruct t; [|simpl in Hlen; lia]. split; [done|]. split; [constructor|].
    intros i p Hp. by rewrite lookup_nil in Hp. }
  rewrite <- fmap_S_seq, <- list_fmap_compose.
  assert (((fun k => take s (drop (k * s) t)) ∘ S <$> seq 0 m)
          = ((fun k => take s (drop (k * s) (drop s t))) <$> seq 0 m)) as ->.
  { apply list_fmap_ext. intros _ k _. simpl. by rewrite drop_drop. }
  destruct (IH (drop s t)) as (Hc & Hall & Hfull).
  { rewrite length_drop. lia. }
  { rewrite length_drop. destruct m; [by left|right]. simpl in *. lia. }
  rewrite drop_0. assert (0 < length t)%nat as Hpos by (destruct Hlast; lia).
  split; [by rewrite Hc, take_drop|]. split.
  - constructor; [|done]. rewrite length_take. lia.
  - intros [|i] p Hp Hi; simpl in Hp, Hi.
    + injection Hp as <-. rewrite length_take, length_fmap, length_seq in *.
      destruct Hlast as [?|Hlast]; [lia|]. destruct m; [lia|].
      simpl in Hlast. lia.
    + apply (Hfull i p Hp). lia.
Qed.

Lemma group_text_parts (text : pystr) (size : Z) :
  0 < size →
  group_text text size
  = str_join [32]
      ((fun k => take (Z.to_nat size) (drop (k * Z.to_nat size) text))
         <$> seq 0 (Z.to_nat ((Z.of_nat (length text) + size - 1) / size))).
Proof.
  intros Hs. unfold group_text, range_step.
  destruct (Z.leb_spec size 0); [lia|]. f_equal.
  rewrite <- list_fmap_compose. apply list_fmap_ext. intros _ k _. simpl.
  rewrite slice_nonneg by lia. rewrite take_drop_commute. f_equal; [lia|].
  f_equal. lia.
Qed.

Lemma group_count (len size : Z) :
  0 ≤ len → 0 < size →
  let m := Z.to_nat ((len + size - 1) / size) in
  (Z.to_nat len ≤ m * Z.to_nat size)%nat
  ∧ (m = 0%nat ∨ ((m - 1) * Z.to_nat size < Z.to_nat len)%nat).
Proof.
  intros Hlen Hs. cbv zeta.
  pose proof (Z.div_mod (len + size - 1) size ltac:(lia)) as Hdm.
  pose proof (Z.mod_pos_bound (len + size - 1) size Hs) as Hr.
  assert (0 ≤ (len + size - 1) / size) as Hq by (apply Z.div_pos; lia).
  set (q := (len + size - 1) / size) in *. split.
  - apply Nat2Z.inj_le. rewrite Nat2Z.inj_mul, !Z2Nat.id by lia. nia.
  - destruct (decide (q = 0)) as [->|Hq0]; [by left|]. right.
    apply Nat2Z.inj_lt. rewrite Nat2Z.inj_mul, Nat2Z.inj_sub by lia.
    rewrite !Z2Nat.id by lia. change (Z.of_nat 1) with 1. nia.
Qed.

Lemma filter_str_join_sep (f : Z → bool) (ps : list pystr) :
  f 32 = false →
  List.filter f (str_join [32] ps) = List.filter f (concat ps).
Proof.
  intros Hf. induction ps as [|p [|q ps] IH]; [done| |].
  - simpl. by rewrite app_nil_r.
  - change (str_join [32] (p :: q :: ps))
      with (p ++ 32 :: str_join [32] (q :: ps)).
    rewrite concat_cons, !List.filter_app. cbn [List.filter].
    by rewrite Hf, IH.
Qed.

Lemma group_text_concat (text : pystr) (size : Z) :
  0 < size →
  ∃ parts, group_text text size = str_join [32] parts
           ∧ concat parts = text
           ∧ Forall (fun p => 0 < Z.of_nat (length p) ≤ size) parts
           ∧ ∀ (i : nat) p, parts !! i = Some p → (S i < length parts)%nat →
                            Z.of_nat (length p) = size.
Proof.
  intros Hs. rewrite group_text_parts by done.
  destruct (group_count (Z.of_nat (length text)) size ltac:(lia) Hs) as [H1 H2].
  rewrite Nat2Z.id in H1, H2.
  destruct (chunks_rebuild (Z.to_nat size) _ text ltac:(lia) H1 H2)
    as (Hc & Hall & Hfull).
  eexists. split; [done|]. split; [done|]. split.
  - eapply Forall_impl; [exact Hall|]. intros p Hp. simpl in Hp. lia.
  - intros i p Hp Hi. specialize (Hfull i p Hp Hi). lia.
Qed.

Lemma filter_group_text (f : Z → bool) (text : pystr) (size : Z) :
  f 32 = false →
  List.filter f (group_text text size) = List.filter f text.
Proof.
  intros Hf. destruct (Z.le_gt_cases size 0) as [Hs|Hs].
  - unfold group_text. by destruct (Z.leb_spec size 0); [|lia].
  - destruct (group_text_concat text size ltac:(lia)) as (parts & -> & Hc & _).
    by rewrite filter_str_join_sep, Hc.
Qed.

(** X9. For a positive group size, [group_text] cuts the text into
    consecutive groups joined by single spaces: the groups put together are
    the text, no group is empty, and every group has exactly [size]
    characters except possibly the last, which has at most [size]. *)
Theorem group_text_groups (text : pystr) (size : Z) :
  0 < size →
  ∃ parts, group_text text size = str_join [32] parts
           ∧ concat parts = text
           ∧ Forall (fun p => 0 < Z.of_nat (length p) ≤ size) parts
           ∧ ∀ (i : nat) p, parts !! i = Some p → (S i < length parts)%nat →
                            Z.of_nat (length p) = size.
Proof. apply group_text_concat. Qed.

Lemma group_text_groups_witness :
  ∃ parts, group_text [65; 66; 67; 68; 69; 70; 71] 3 = str_join [32] parts
           ∧ concat parts = [65; 66; 67; 68; 69; 70; 71]
           ∧ Forall (fun p => 0 < Z.of_nat (length p) ≤ 3) parts
           ∧ ∀ (i : nat) p, parts !! i = Some p → (S i < length parts)%nat →
                            Z.of_nat (length p) = 3.
Proof. apply group_text_groups. lia. Defined.

(** X10. Grouping only inserts spaces: for every group size, positive or
    not, keeping the characters that pass a test rejecting the space gives
    the same result on the grouped text as on the text; a size of zero or
    less returns the text itself. *)
Theorem group_text_only_adds_spaces (f : Z → bool) (text : pystr) (size : Z) :
  f 32 = false →
  List.filter f (group_text text size) = List.filter f text
  ∧ (size ≤ 0 → group_text text size = text).
Proof.
  intros Hf. split; [by apply filter_group_text|].
  intros Hs. unfold group_text. by destruct (Z.leb_spec size 0); [|lia].
Qed.

Lemma group_text_only_adds_spaces_witness :
  List.filter is_letter (group_text [65; 66; 67; 68; 69; 70; 71] 3)
  = List.filter is_letter [65; 66; 67; 68; 69; 70; 71]
  ∧ (3 ≤ 0 → group_text [65; 66; 67; 68; 69; 70; 71] 3
             = [65; 66; 67; 68; 69; 70; 71]).
Proof. apply group_text_only_adds_spaces. reflexivity. Defined.

(** ** Text transformation *)

(** Combining keeps the case of the letter, and the opposite sign undoes
    it, for every key character. *)
Lemma combine_letters_inverse a k s :
  is_letter a = true → s = 1 ∨ s = -1 →
  is_letter (combine_letters a k s) = true
  ∧ Py.isupper (combine_letters a k s) = Py.isupper a
  ∧ combine_letters (combine_letters a k s) k (- s) = a.
Proof.
  intros Ha Hs. unfold is_letter, combine_letters, Py.isupper in *.
  destruct (Z.leb_spec 65 a), (Z.leb_spec a 90); simpl in Ha |- *;
    try (destruct (Z.leb_spec 97 a), (Z.leb_spec a 122); simpl in Ha; try done);
    try lia.
  - pose proof (Z.mod_pos_bound (a - 65 + s * (k - 64)) 26 ltac:(lia)) as Hm.
    set (c0 := (a - 65 + s * (k - 64)) mod 26) in *.
    destruct (Z.leb_spec 65 (65 + c0)), (Z.leb_spec (65 + c0) 90); try lia.
    simpl. split; [done|]. split; [done|].
    replace (65 + c0 - 65 + - s * (k - 64)) with (c0 - s * (k - 64)) by lia.
    subst c0. rewrite Zminus_mod_idemp_l.
    replace (a - 65 + s * (k - 64) - s * (k - 64)) with (a - 65) by lia.
    rewrite Z.mod_small by lia. lia.
  - pose proof (Z.mod_pos_bound (a - 97 + s * (k - 64)) 26 ltac:(lia)) as Hm.
    set (c0 := (a - 97 + s * (k - 64)) mod 26) in *.
    destruct (Z.leb_spec 65 (97 + c0)), (Z.leb_spec (97 + c0) 90),
      (Z.leb_spec 97 (97 + c0)), (Z.leb_spec (97 + c0) 122); try lia.
    simpl. split; [done|]. split; [done|].
    replace (97 + c0 - 97 + - s * (k - 64)) with (c0 - s * (k - 64)) by lia.
    subst c0. rewrite Zminus_mod_idemp_l.
    replace (a - 97 + s * (k - 64) - s * (k - 64)) with (a - 97) by lia.
    rewrite Z.mod_small by lia. lia.
Qed.

Lemma combine_letters_case a k s :
  is_letter a = true →
  is_letter (combine_letters a k s) = true
  ∧ Py.isupper (combine_letters a k s) = Py.isupper a.
Proof.
  intros Ha. unfold is_letter, combine_letters, Py.isupper in *.
  destruct (Z.leb_spec 65 a), (Z.leb_spec a 90); simpl in Ha |- *;
    try (destruct (Z.leb_spec 97 a), (Z.leb_spec a 122); simpl in Ha; try done);
    try lia.
  - pose proof (Z.mod_pos_bound (a - 65 + s * (k - 64)) 26 ltac:(lia)) as Hm.
    set (c0 := (a - 65 + s * (k - 64)) mod 26) in *.
    by destruct (Z.leb_spec 65 (65 + c0)), (Z.leb_spec (65 + c0) 90); try lia.
  - pose proof (Z.mod_pos_bound (a - 97 + s * (k - 64)) 26 ltac:(lia)) as Hm.
    set (c0 := (a - 97 + s * (k - 64)) mod 26) in *.
    by destruct (Z.leb_spec 65 (97 + c0)), (Z.leb_spec (97 + c0) 90),
      (Z.leb_spec 97 (97 + c0)), (Z.leb_spec (97 + c0) 122); try lia.
Qed.

Lemma draw_length fuel n g d ks d' :
  draw fuel n g d = Ok (ks, d') → length ks = n.
Proof.
  revert g d ks d'. induction n as [|n IH]; intros g d ks d'; simpl.
  { by intros [= <- _]. }
  intros H. apply bind_Ok in H as ([[k g1] d1] & _ & H).
  apply bind_Ok in H as ([ks1 e1] & Hd & H). injection H as <- _.
  simpl. f_equal. by eapply IH.
Qed.

Lemma combine_text_filter fuel text g d sign :
  combine_text fuel text g d sign
  = combine_text fuel (List.filter is_letter text) g d sign.
Proof.
  revert g d. induction text as [|ch text IH]; intros g d; [done|].
  cbn [combine_text List.filter]. destruct (is_letter ch) eqn:E.
  - cbn [combine_text]. rewrite E.
    destruct (gen_next fuel g d) as [[[k g'] d1]| |]; [|done..].
    cbn [mbind result_bind]. by rewrite IH.
  - apply IH.
Qed.

Lemma filter_is_letter_Forall text :
  Forall (fun c => is_letter c = true) (List.filter is_letter text).
Proof.
  apply Forall_forall. intros c Hc. apply list_elem_of_In in Hc.
  by apply List.filter_In in Hc as [_ ?].
Qed.

Lemma zip_combine_case T ks s :
  Forall (fun c => is_letter c = true) T → length ks = length T →
  Forall2 (fun a c => is_letter c = true ∧ Py.isupper c = Py.isupper a)
    T (zip_with (fun a k => combine_letters a k s) T ks).
Proof.
  intros HT. revert ks. induction HT as [|ch T Hch HT IH]; intros ks Hlen.
  { destruct ks; [constructor|done]. }
  destruct ks as [|k ks]; [done|]. simpl in *. constructor.
  - by apply combine_letters_case.
  - apply IH. lia.
Qed.

Lemma zip_combine_inverse T ks s :
  Forall (fun c => is_letter c = true) T → length ks = length T →
  s = 1 ∨ s = -1 →
  let C := zip_with (fun a k => combine_letters a k s) T ks in
  length C = length T
  ∧ Forall (fun c => is_letter c = true) C
  ∧ zip_with (fun a k => combine_letters a k (- s)) C ks = T.
Proof.
  intros HT. revert ks. induction HT as [|ch T Hch HT IH]; intros ks Hlen Hs.
  { by destruct ks. }
  destruct ks as [|k ks]; [done|]. simpl in *.
  destruct (IH ks ltac:(lia) Hs) as (H1 & H2 & H3).
  destruct (combine_letters_inverse ch k s Hch Hs) as (H4 & _ & H5).
  split; [by rewrite H1|]. split; [by constructor|]. by rewrite H5, H3.
Qed.

Lemma combine_text_inverse fuel T g d s C d1 :
  Forall (fun c => is_letter c = true) T → s = 1 ∨ s = -1 →
  combine_text fuel T g d s = Ok (C, d1) →
  combine_text fuel C g d (- s) = Ok (T, d1).
Proof.
  intros HT Hs. rewrite combine_text_letters by done. intros H.
  apply bind_Ok in H as ([ks e] & Hd & H). injection H as <- <-.
  pose proof (draw_length _ _ _ _ _ _ Hd) as Hlen.
  destruct (zip_combine_inverse T ks s HT Hlen Hs) as (H1 & H2 & H3).
  rewrite combine_text_letters by done. rewrite H1, Hd.
  cbn [mbind result_bind]. by rewrite H3.
Qed.

(** X11. [combine_text] drops every character that is not an ASCII letter
    and consumes no key letter for it: the result is the one obtained from
    the text reduced to its letters. Each letter gives one output letter
    of the same case, so the output has as many characters as the text has
    letters. *)
Theorem combine_text_drops_non_letters
    (fuel : nat) (text : pystr) (g : keygen) (d : deck) (sign : Z) :
  combine_text fuel text g d sign
  = combine_text fuel (List.filter is_letter text) g d sign
  ∧ ∀ out d', combine_text fuel text g d sign = Ok (out, d') →
      Forall2 (fun a c => is_letter c = true ∧ Py.isupper c = Py.isupper a)
        (List.filter is_letter text) out.
Proof.
  split; [apply combine_text_filter|]. intros out d'.
  rewrite combine_text_filter.
  rewrite combine_text_letters by apply filter_is_letter_Forall.
  intros H. apply bind_Ok in H as ([ks e] & Hd & H). injection H as <- _.
  apply zip_combine_case; [apply filter_is_letter_Forall|].
  by eapply draw_length.
Qed.

(** X12. From one deck state, whatever it is, [encrypt] and [decrypt] undo
    each other on texts made of letters: if either returns, the other one
    applied to its output returns the input, and both leave the deck in
    the same state. *)
Theorem encrypt_decrypt_inverse_on_any_deck
    (fuel : nat) (T C : pystr) (d d1 : deck) :
  Forall (fun c => is_letter c = true) T →
  (encrypt fuel T d = Ok (C, d1) → decrypt fuel C d = Ok (T, d1))
  ∧ (decrypt fuel T d = Ok (C, d1) → encrypt fuel C d = Ok (T, d1)).
Proof.
  intros HT. unfold encrypt, decrypt. split; intros H.
  - by apply (combine_text_inverse fuel T _ d 1 C d1 HT ltac:(left; done)).
  - by apply (combine_text_inverse fuel T _ d (-1) C d1 HT ltac:(right; done)).
Qed.

Lemma encrypt_decrypt_inverse_on_any_deck_witness :
  ∃ C d1, decrypt 4 [72; 105] (seqZ 1 54) = Ok (C, d1)
          ∧ encrypt 4 C (seqZ 1 54) = Ok ([72; 105], d1).
Proof.
  eexists _, _. split; [vm_compute; reflexivity|].
  apply (encrypt_decrypt_inverse_on_any_deck 4 [72; 105]);
    [repeat constructor | vm_compute; reflexivity].
Defined.

Lemma combine_text_unbounded fuel T s g g' d :
  kg_length g ≤ 0 → kg_length g' ≤ 0 →
  combine_text fuel T g d s = combine_text fuel T g' d s.
Proof.
  revert g g' d. induction T as [|ch T IH]; intros g g' d Hg Hg'; [done|].
  cbn [combine_text]. destruct (is_letter ch); [|by apply IH].
  rewrite !gen_next_unbounded by done.
  destruct (next_key_letter fuel d) as [[k d1]| |]; [|done..].
  cbn [mbind result_bind]. by rewrite (IH _ {| kg_length := kg_length g';
                                               kg_i := kg_i g' + 1 |}).
Qed.

Lemma combine_text_app fuel T1 T2 s g d :
  kg_length g ≤ 0 →
  combine_text fuel (T1 ++ T2) g d s
  = '(o1, d1) ← combine_text fuel T1 g d s;
    '(o2, d2) ← combine_text fuel T2 g d1 s;
    Ok (o1 ++ o2, d2).
Proof.
  revert g d. induction T1 as [|ch T1 IH]; intros g d Hg.
  { simpl. by destruct (combine_text fuel T2 g d s) as [[o2 d2]| |]. }
  cbn [combine_text app]. destruct (is_letter ch); [|by apply IH].
  rewrite gen_next_unbounded by done.
  destruct (next_key_letter fuel d) as [[k d1]| |]; [|done..].
  cbn [mbind result_bind]. rewrite IH by done.
  destruct (combine_text fuel T1 _ d1 s) as [[o1 e1]| |]; [|done..].
  cbn [mbind result_bind].
  rewrite (combine_text_unbounded fuel T2 s _ g e1) by done.
  by destruct (combine_text fuel T2 g e1 s) as [[o2 e2]| |].
Qed.

(** X13. The key stream goes on from call to call: encrypting a text in
    two parts, the second part on the deck left by the first, gives the
    same ciphertext and the same final deck as encrypting the whole text
    at once; and so for decrypting. *)
Theorem encrypt_in_two_parts (fuel : nat) (T1 T2 : pystr) (d : deck) :
  encrypt fuel (T1 ++ T2) d
  = ('(c1, d1) ← encrypt fuel T1 d;
     '(c2, d2) ← encrypt fuel T2 d1;
     Ok (c1 ++ c2, d2))
  ∧ decrypt fuel (T1 ++ T2) d
    = ('(c1, d1) ← decrypt fuel T1 d;
       '(c2, d2) ← decrypt fuel T2 d1;
       Ok (c1 ++ c2, d2)).
Proof. split; apply combine_text_app; simpl; lia. Qed.

Lemma draw_bounded fuel n g d :
  0 < kg_length g → kg_i g + Z.of_nat n ≤ kg_length g →
  draw fuel n g d = draw fuel n {| kg_length := 0; kg_i := kg_i g |} d.
Proof.
  revert g d. induction n as [|n IH]; intros g d Hl Hi; [done|].
  cbn [draw]. rewrite (gen_next_unbounded fuel {| kg_length := 0; kg_i := _ |})
    by (simpl; lia).
  unfold gen_next at 1.
  destruct (Z.leb_spec (kg_length g) 0); [lia|].
  destruct (Z.ltb_spec (kg_i g) (kg_length g)); [|lia]. simpl orb. cbv iota.
  destruct (next_key_letter fuel d) as [[k d1]| |]; [|done..].
  cbn [mbind result_bind kg_length kg_i]. rewrite IH by (simpl; lia). done.
Qed.

Lemma draw_exhausted fuel n m g d :
  0 < kg_length g → kg_i g + Z.of_nat n = kg_length g →
  (∃ r, draw fuel n g d = Ok r) →
  draw fuel (n + S m) g d = Raise StopIteration.
Proof.
  revert g d. induction n as [|n IH]; intros g d Hl Hi Hok.
  - cbn [Nat.add draw]. unfold gen_next.
    destruct (Z.leb_spec (kg_length g) 0); [lia|].
    by destruct (Z.ltb_spec (kg_i g) (kg_length g)); [lia|].
  - cbn [Nat.add draw] in *. destruct Hok as [r Hok].
    apply bind_Ok in Hok as ([[k g1] d1] & Hg & Hok). rewrite Hg.
    cbn [mbind result_bind].
    apply bind_Ok in Hok as ([ks e1] & Hd & _).
    apply gen_next_Ok in Hg as [_ ->].
    rewrite IH; [done|simpl; lia..|by eexists].
Qed.

(** X14. A generator [get_key_stream(length)] with a positive [length]
    yields exactly [length] key letters, the first [length] letters of the
    unbounded key stream; the request after the last one raises
    [StopIteration]. *)
Theorem get_key_stream_yields_length
    (fuel : nat) (len : Z) (n m : nat) (d : deck) :
  0 < len →
  (Z.of_nat n ≤ len →
   draw fuel n (get_key_stream len) d = draw fuel n (get_key_stream 0) d)
  ∧ ((∃ r, draw fuel (Z.to_nat len) (get_key_stream len) d = Ok r) →
     draw fuel (Z.to_nat len + S m) (get_key_stream len) d
     = Raise StopIteration).
Proof.
  intros Hlen. split.
  - intros Hn. apply (draw_bounded fuel n (get_key_stream len)); simpl; lia.
  - intros Hok. apply draw_exhausted; simpl; [lia..|done].
Qed.

Lemma get_key_stream_yields_length_witness :
  (Z.of_nat 2 ≤ 3 →
   draw 4 2 (get_key_stream 3) (seqZ 1 54) = draw 4 2 (get_key_stream 0) (seqZ 1 54))
  ∧ ((∃ r, draw 4 (Z.to_nat 3) (get_key_stream 3) (seqZ 1 54) = Ok r) →
     draw 4 (Z.to_nat 3 + 1) (get_key_stream 3) (seqZ 1 54) = Raise StopIteration).
Proof. apply (get_key_stream_yields_length 4 3 2 0). lia. Defined.

(** ** The passphrase *)

Lemma upper_idempotent c : Py.upper (Py.upper c) = Py.upper c.
Proof.
  assert (∀ x, ¬ (97 ≤ x ≤ 122) → Py.upper x = x) as Hfix.
  { intros x Hx. unfold Py.upper.
    destruct (Z.leb_spec 97 x), (Z.leb_spec x 122); simpl; lia. }
  apply Hfix. unfold Py.upper.
  destruct (Z.leb_spec 97 c), (Z.leb_spec c 122); simpl; lia.
Qed.

Lemma add_password_upper pw d :
  add_password (Py.upper <$> pw) d = add_password pw d.
Proof.
  revert d. induction pw as [|c pw IH]; intros d; [done|].
  rewrite fmap_cons. cbn [add_password]. unfold add_password_letter.
  rewrite upper_idempotent.
  destruct (shift_cut d) as [d1| |]; [|done..]. cbn [mbind result_bind].
  destruct (count_cut (Py.upper c - 64) d1) as [d2| |]; [|done..].
  cbn [mbind result_bind]. apply IH.
Qed.

(** X15. An ASCII passphrase is case-insensitive: the passphrase and its
    upper-case form key the deck identically, from any deck state and
    hence in [from_password]. *)
Theorem passphrase_case_insensitive (pw : pystr) (d : deck) :
  ascii pw →
  add_password (Py.upper <$> pw) d = add_password pw d
  ∧ from_password (Py.upper <$> pw) = from_password pw.
Proof.
  intros _. split; [apply add_password_upper|]. unfold from_password.
  destruct create as [d0| |]; [|done..]. cbn [mbind result_bind].
  apply add_password_upper.
Qed.

Lemma passphrase_case_insensitive_witness :
  from_password [70; 79; 79] = from_password [102; 111; 111].
Proof.
  apply (passphrase_case_insensitive [102; 111; 111] []).
  unfold ascii. repeat first [lia | constructor].
Defined.

Lemma count_cut_appends_bottom (d0 : deck) (z n : Z) :
  Z.of_nat (length (d0 ++ [z])) ≤ n →
  count_cut n (d0 ++ [z]) = Ok ((d0 ++ [z]) ++ [z]).
Proof.
  intros Hn. unfold count_cut. rewrite getitem_last. cbn [mbind result_bind].
  unfold Py.slice, Py.slice_to.
  assert (Py.bound (length (d0 ++ [z])) n = length (d0 ++ [z])) as ->
    by (unfold Py.bound; destruct (Z.ltb_spec n 0); lia).
  rewrite drop_ge by (rewrite length_take; lia).
  by rewrite take_ge by lia.
Qed.

(** X16. Passphrase characters that are not letters are applied too. On a
    permutation of 1..54 every ASCII character up to [z] (code 122) keeps
    the deck a permutation of 1..54; each of the five characters after it
    (codes 123..127) asks for a cut of more than 53 cards and leaves a list
    of 55 cards, the bottom card of the round occurring twice. *)
Theorem add_password_letter_on_ascii (c : Z) (d : deck) :
  valid_deck d → 0 ≤ c ≤ 127 →
  (c ≤ 122 → ∃ d', add_password_letter c d = Ok d' ∧ valid_deck d')
  ∧ (123 ≤ c →
     ∃ d1 z, shift_cut d = Ok d1 ∧ last d1 = Some z
             ∧ add_password_letter c d = Ok (d1 ++ [z])
             ∧ length (d1 ++ [z]) = 55%nat).
Proof.
  intros Hv Hc. pose proof (valid_deck_shaped d Hv) as Hs. split.
  - intros Hc'. destruct (add_password_letter_shaped c d Hs) as (d' & E & P).
    { unfold Py.upper.
      destruct (Z.leb_spec 97 c), (Z.leb_spec c 122); simpl; lia. }
    exists d'. split; [done|]. by eapply valid_deck_Permutation.
  - intros Hc'. destruct (shift_cut_shaped d Hs) as (d1 & E1 & P1).
    assert (length d1 = 54%nat) as Hlen by (rewrite P1; by destruct Hs).
    destruct (snoc_of_length d1 53 Hlen) as (d0 & z & -> & Hlen0).
    exists (d0 ++ [z]), z. split; [done|]. split; [apply last_snoc|].
    unfold add_password_letter. rewrite E1. cbn [mbind result_bind].
    split; [|rewrite length_app, Hlen; simpl; lia].
    apply count_cut_appends_bottom. rewrite Hlen. unfold Py.upper.
    destruct (Z.leb_spec 97 c), (Z.leb_spec c 122); simpl; lia.
Qed.

Lemma add_password_letter_on_ascii_witness :
  ∃ d1 z, shift_cut (seqZ 1 54) = Ok d1 ∧ last d1 = Some z
          ∧ add_password_letter 123 (seqZ 1 54) = Ok (d1 ++ [z])
          ∧ length (d1 ++ [z]) = 55%nat.
Proof.
  apply (add_password_letter_on_ascii 123 (seqZ 1 54)); [|lia|lia].
  unfold valid_deck. reflexivity.
Defined.

(** ** The command line *)

Lemma main_unfold fuel args :
  main fuel args
  = match main_deck args with
    | Ok d =>
        match main_text args with
        | Some text =>
            outcome_of
              ('(r, _) ← combine_text fuel (clean_text text) (get_key_stream 0) d
                           (if truthy (arg_encrypt args) then 1 else -1);
               Ok (group_text r (arg_group_size args)))
        | None => UncaughtTypeError
        end
    | Raise e => Uncaught e
    | OutOfFuel => StillRunning
    end.
Proof.
  unfold main, main_text, encrypt, decrypt.
  destruct (main_deck args); [|done..].
  by destruct (truthy (arg_encrypt args)).
Qed.

Lemma main_Prints fuel args out :
  main fuel args = Prints out →
  ∃ d text C d1,
    main_deck args = Ok d ∧ main_text args = Some text
    ∧ combine_text fuel (clean_text text) (get_key_stream 0) d
        (if truthy (arg_encrypt args) then 1 else -1) = Ok (C, d1)
    ∧ out = group_text C (arg_group_size args).
Proof.
  rewrite main_unfold. destruct (main_deck args) as [d| |]; [|done..].
  destruct (main_text args) as [text|]; [|done].
  destruct (combine_text _ _ _ _ _) as [[C d1]| |] eqn:E; [|done..].
  cbn [mbind result_bind outcome_of]. intros [= <-]. by exists d, text, C, d1.
Qed.

Lemma upper_case_is_letter c : 65 ≤ c ≤ 90 → is_letter c = true ∧ Py.upper c = c.
Proof.
  intros Hc. unfold is_letter, Py.upper.
  destruct (Z.leb_spec 65 c), (Z.leb_spec c 90), (Z.leb_spec 97 c); simpl; try lia;
    done.
Qed.

Lemma clean_text_upper text : Forall (fun c => 65 ≤ c ≤ 90) (clean_text text).
Proof.
  unfold clean_text. apply Forall_fmap.
  eapply Forall_impl; [apply filter_is_letter_Forall|].
  intros c Hc. by apply upper_letter.
Qed.

Lemma clean_text_length text :
  length (clean_text text) = length (List.filter is_letter text).
Proof. unfold clean_text. by rewrite length_fmap. Qed.

Lemma filter_is_letter_upper C :
  Forall (fun c => 65 ≤ c ≤ 90) C → List.filter is_letter C = C.
Proof.
  induction 1 as [|c C Hc HC IH]; [done|]. cbn [List.filter].
  destruct (upper_case_is_letter c Hc) as [-> _]. by rewrite IH.
Qed.

Lemma clean_text_fixed C : Forall (fun c => 65 ≤ c ≤ 90) C → clean_text C = C.
Proof.
  intros HC. unfold clean_text. rewrite filter_is_letter_upper by done.
  induction HC as [|c C Hc HC IH]; [done|]. rewrite fmap_cons, IH.
  by destruct (upper_case_is_letter c Hc) as [_ ->].
Qed.

Lemma combine_text_upper fuel T g d s C d1 :
  Forall (fun c => 65 ≤ c ≤ 90) T →
  combine_text fuel T g d s = Ok (C, d1) →
  Forall (fun c => 65 ≤ c ≤ 90) C ∧ length C = length T.
Proof.
  intros HT.
  assert (Forall (fun c => is_letter c = true) T) as HT'.
  { eapply Forall_impl; [exact HT|]. intros c Hc.
    by destruct (upper_case_is_letter c Hc). }
  rewrite combine_text_letters by done. intros H.
  apply bind_Ok in H as ([ks e] & Hd & H). injection H as <- _.
  pose proof (draw_length _ _ _ _ _ _ Hd) as Hlen.
  pose proof (zip_combine_case T ks s HT' Hlen) as H2.
  split; [|symmetry; by eapply Forall2_length].
  clear Hd Hlen HT'. induction H2 as [|a c T C [_ Hac] H2 IH]; [done|].
  apply Forall_cons in HT as [Ha HT]. constructor; [|by apply IH].
  unfold Py.isupper in Hac.
  destruct (Z.leb_spec 65 a), (Z.leb_spec a 90); lia.
Qed.

Lemma group_text_nil size : group_text [] size = [].
Proof.
  unfold group_text. destruct (Z.leb_spec size 0) as [|Hs]; [reflexivity|].
  unfold range_step. simpl length. change (Z.of_nat 0) with 0.
  replace ((0 + size - 1) / size) with 0; [reflexivity|].
  symmetry. apply Z.div_small. lia.
Qed.

Lemma str_join_Forall (P : Z → Prop) (sep : pystr) (parts : list pystr) :
  Forall P sep → Forall (Forall P) parts → Forall P (str_join sep parts).
Proof.
  intros Hsep. induction 1 as [|p [|q ps] Hp Hps IH]; [constructor|done|].
  change (str_join sep (p :: q :: ps)) with (p ++ sep ++ str_join sep (q :: ps)).
  apply Forall_app. split; [done|]. apply Forall_app. by split.
Qed.

Lemma group_text_Forall (P : Z → Prop) (text : pystr) (size : Z) :
  P 32 → Forall P text → Forall P (group_text text size).
Proof.
  intros H32 Ht. destruct (Z.le_gt_cases size 0) as [Hs|Hs].
  - unfold group_text. by destruct (Z.leb_spec size 0); [|lia].
  - destruct (group_text_concat text size ltac:(lia)) as (parts & -> & Hc & _).
    apply str_join_Forall; [by repeat constructor|].
    apply Forall_concat. by rewrite Hc.
Qed.

(** X17. What [main] prints for [-e text] is read back by [-d]: run again
    with the same [--deck] and (ASCII) passphrase and the printed line as the
    ciphertext, [main] prints the letters of [text] in upper case, grouped
    by the group size of the second run. The group size and spacing of the
    first run do not matter. *)
Theorem main_decrypts_its_output
    (fuel : nat) (a b : cli_args) (text out : pystr) :
  ascii_passphrase a →
  arg_encrypt a = Some text → text ≠ [] →
  arg_encrypt b = None → arg_decrypt b = Some out →
  arg_passphrase b = arg_passphrase a → arg_deck b = arg_deck a →
  main fuel a = Prints out →
  main fuel b = Prints (group_text (clean_text text) (arg_group_size b)).
Proof.
  intros _ Ha Hne Hb1 Hb2 Hp Hd Hmain.
  assert (truthy (arg_encrypt a) = true) as Ht
    by (rewrite Ha; by destruct text).
  apply main_Prints in Hmain as (d & text' & C & d1 & Hdeck & Htxt & Hc & ->).
  unfold main_text in Htxt. rewrite Ht, Ha in Htxt. injection Htxt as <-.
  rewrite Ht in Hc.
  destruct (combine_text_upper _ _ _ _ _ _ _ (clean_text_upper text) Hc)
    as [HC _].
  rewrite main_unfold.
  assert (main_deck b = Ok d) as -> by (unfold main_deck in *; by rewrite Hp, Hd).
  unfold main_text. rewrite Hb1, Hb2. cbn [truthy].
  assert (clean_text (group_text C (arg_group_size a)) = C) as ->.
  { unfold clean_text. rewrite filter_group_text by done.
    by apply clean_text_fixed. }
  assert (combine_text fuel C (get_key_stream 0) d (-1)
          = Ok (clean_text text, d1)) as ->; [|done].
  apply (combine_text_inverse fuel (clean_text text) _ d 1 C d1); [|by left|done].
  eapply Forall_impl; [apply clean_text_upper|].
  intros c Hc'. by destruct (upper_case_is_letter c Hc').
Qed.

Lemma main_decrypts_its_output_witness :
  ∃ out,
    main 4 {| arg_encrypt := Some [72; 105; 33]; arg_decrypt := None;
              arg_passphrase := Some [107]; arg_deck := []; arg_group_size := 1 |}
    = Prints out
    ∧ main 4 {| arg_encrypt := None; arg_decrypt := Some out;
                arg_passphrase := Some [107]; arg_deck := []; arg_group_size := 5 |}
      = Prints [72; 73].
Proof.
  exists [69; 32; 81]. split; [vm_compute; reflexivity|].
  refine (main_decrypts_its_output 4
            {| arg_encrypt := Some [72; 105; 33]; arg_decrypt := None;
               arg_passphrase := Some [107]; arg_deck := [];
               arg_group_size := 1 |}
            {| arg_encrypt := None; arg_decrypt := Some [69; 32; 81];
               arg_passphrase := Some [107]; arg_deck := [];
               arg_group_size := 5 |}
            [72; 105; 33] [69; 32; 81]
            _ eq_refl _ eq_refl eq_refl eq_refl eq_refl _);
    [unfold ascii_passphrase, ascii; simpl; repeat first [lia | constructor]
    | done | vm_compute; reflexivity].
Defined.

(** X18. The empty text. Once the deck is built, [main] called with
    [-e ''] stops with the [TypeError] of [re.sub] on [None]: the empty
    plaintext is false, so the decrypt branch runs on the absent
    ciphertext. With any other text that holds no letter ([-d ''] among
    them) it prints the empty line. *)
Theorem main_on_empty_text (fuel : nat) (args : cli_args) (d : deck) :
  ascii_passphrase args → main_deck args = Ok d →
  (arg_encrypt args = Some [] → arg_decrypt args = None →
   main fuel args = UncaughtTypeError)
  ∧ (∀ text, main_text args = Some text → clean_text text = [] →
             main fuel args = Prints []).
Proof.
  intros _ Hd. rewrite main_unfold, Hd. split.
  - intros He Hdec. unfold main_text. by rewrite He, Hdec.
  - intros text -> ->. cbn [combine_text mbind result_bind outcome_of].
    by rewrite group_text_nil.
Qed.

Lemma main_on_empty_text_witness :
  main 0 {| arg_encrypt := Some []; arg_decrypt := None;
            arg_passphrase := None; arg_deck := []; arg_group_size := 5 |}
  = UncaughtTypeError
  ∧ main 0 {| arg_encrypt := None; arg_decrypt := Some [];
              arg_passphrase := None; arg_deck := []; arg_group_size := 5 |}
    = Prints [].
Proof.
  split.
  - refine (proj1 (main_on_empty_text 0
                     {| arg_encrypt := Some []; arg_decrypt := None;
                        arg_passphrase := None; arg_deck := [];
                        arg_group_size := 5 |} (seqZ 1 54) I _) eq_refl eq_refl).
    reflexivity.
  - refine (proj2 (main_on_empty_text 0
                     {| arg_encrypt := None; arg_decrypt := Some [];
                        arg_passphrase := None; arg_deck := [];
                        arg_group_size := 5 |} (seqZ 1 54) I _) [] eq_refl eq_refl).
    reflexivity.
Defined.

(** X19. Whatever [main] prints consists of upper-case letters and spaces
    only, and holds exactly one letter for each ASCII letter of the text it
    was given. *)
Theorem main_prints_upper_case (fuel : nat) (args : cli_args) (out : pystr) :
  ascii_passphrase args → main fuel args = Prints out →
  Forall (fun c => c = 32 ∨ 65 ≤ c ≤ 90) out
  ∧ ∃ text, main_text args = Some text
            ∧ length (List.filter is_letter out)
              = length (List.filter is_letter text).
Proof.
  intros _ Hmain.
  apply main_Prints in Hmain as (d & text & C & d1 & Hdeck & Htxt & Hc & ->).
  destruct (combine_text_upper _ _ _ _ _ _ _ (clean_text_upper text) Hc)
    as [HC Hlen].
  split.
  - apply group_text_Forall; [by left|].
    eapply Forall_impl; [exact HC|]. intros c ?. by right.
  - exists text. split; [done|].
    rewrite filter_group_text by done.
    rewrite filter_is_letter_upper by done.
    by rewrite Hlen, clean_text_length.
Qed.

Lemma main_prints_upper_case_witness :
  ∃ out,
    main 4 {| arg_encrypt := Some [72; 105; 33]; arg_decrypt := None;
              arg_passphrase := None; arg_deck := []; arg_group_size := 1 |}
    = Prints out
    ∧ Forall (fun c => c = 32 ∨ 65 ≤ c ≤ 90) out.
Proof.
  eexists. split; [vm_compute; reflexivity|].
  apply (main_prints_upper_case 4
           {| arg_encrypt := Some [72; 105; 33]; arg_decrypt := None;
              arg_passphrase := None; arg_deck := []; arg_group_size := 1 |});
    [exact I | vm_compute; reflexivity].
Defined.

(** ** Deck lines and lookup tables *)

Lemma keep_char_class x :
  x ∈ INPUT_CLASS → keep_char x = true ∧ Py.isspace x = false.
Proof. intros H. unfold INPUT_CLASS in H. enum_elem_of H; by split. Qed.

Lemma filter_keep_class (t : pystr) :
  Forall (fun x => x ∈ INPUT_CLASS) t → List.filter keep_char t = t.
Proof.
  induction 1 as [|x t Hx Ht IH]; [done|]. cbn [List.filter].
  destruct (keep_char_class x Hx) as [-> _]. by rewrite IH.
Qed.

(** X20. A deck line made of tokens joined by single spaces, each token
    non-empty and written in the characters of the deck alphabet, is read
    by [Deck.from_input] as exactly those tokens: the character filter
    removes nothing and the split returns them in order. *)
Theorem from_input_reads_tokens (tokens : list pystr) :
  Forall (fun t => t ≠ [] ∧ Forall (fun x => x ∈ INPUT_CLASS) t) tokens →
  tokenize (str_join [32] tokens) = tokens
  ∧ from_input (str_join [32] tokens) = from_tokens tokens.
Proof.
  intros H.
  assert (tokenize (str_join [32] tokens) = tokens) as Ht.
  { unfold tokenize. rewrite filter_str_join.
    assert (List.filter keep_char <$> tokens = tokens) as ->.
    { induction H as [|t ts [_ Ht] Hts IH]; [done|].
      by rewrite fmap_cons, IH, filter_keep_class. }
    apply split_str_join. eapply Forall_impl; [exact H|].
    intros t [Hne Hcls]. split; [done|].
    eapply Forall_impl; [exact Hcls|]. intros x Hx.
    by destruct (keep_char_class x Hx). }
  split; [done|]. unfold from_input. by rewrite Ht.
Qed.

Lemma from_input_reads_tokens_witness :
  tokenize (str_join [32] default_tokens) = default_tokens
  ∧ from_input (str_join [32] default_tokens) = from_tokens default_tokens.
Proof.
  apply from_input_reads_tokens.
  apply Forall_forall. intros t Ht.
  vm_compute in Ht. enum_elem_of Ht;
    (split; [done|]; repeat constructor;
     apply (bool_decide_eq_true_1 _); reflexivity).
Defined.

(** X21. [_flip] inverts indexing. For a string without repeated
    characters, looking a character up in [_flip(s)] gives the position at
    which [s] holds it, and raises [KeyError] exactly for the characters
    that [s] does not hold. *)
Theorem flip_lookup (s : pystr) (ch : Z) :
  NoDup s →
  (∀ i : nat, dict_get (_flip s) ch = Ok (Z.of_nat i) ↔ s !! i = Some ch)
  ∧ (dict_get (_flip s) ch = Raise KeyError ↔ ch ∉ s)
  ∧ (∀ n, dict_get (_flip s) ch = Ok n → 0 ≤ n < Z.of_nat (length s)).
Proof.
  intros Hnd. unfold dict_get, _flip.
  destruct (list_find _ _) as [[j p]|] eqn:E.
  - apply list_find_Some in E as (Hj & Hp & _).
    rewrite list_lookup_imap in Hj.
    apply fmap_Some in Hj as (x & Ex & ->). simpl in Hp. subst x. cbn [snd].
    split; [|split].
    + intros i. split.
      * intros [= Hi]. apply Nat2Z.inj in Hi. by subst.
      * intros Hi. by rewrite (NoDup_lookup s i j ch Hnd Hi Ex).
    + split; [done|]. intros Hno. exfalso. apply Hno.
      by eapply list_elem_of_lookup_2.
    + intros n [= <-]. apply lookup_lt_Some in Ex. lia.
  - apply list_find_None in E.
    assert (ch ∉ s) as Hno.
    { intros Hin. apply list_elem_of_lookup_1 in Hin as [i Hi].
      apply (proj1 (Forall_lookup _ _) E i (ch, Z.of_nat i)); [|done].
      by rewrite list_lookup_imap, Hi. }
    split; [|split; [done|done]].
    intros i. split; [done|]. intros Hi. exfalso. apply Hno.
    by eapply list_elem_of_lookup_2.
Qed.

Lemma flip_lookup_witness :
  dict_get (_flip VALUES) 84 = Ok (Z.of_nat 9)
  ∧ (dict_get (_flip VALUES) 116 = Raise KeyError ↔ 116 ∉ VALUES).
Proof.
  assert (NoDup VALUES) as Hnd
    by (apply (bool_decide_eq_true_1 _); reflexivity).
  split.
  - by apply (proj1 (flip_lookup VALUES 84 Hnd) 9%nat).
  - exact (proj1 (proj2 (flip_lookup VALUES 116 Hnd))).
Defined.

(** ** No failure on a valid deck *)

Lemma combine_text_valid fuel text d sign :
  valid_deck d →
  match combine_text fuel text (get_key_stream 0) d sign with
  | Ok (out, d1) =>
      valid_deck d1 ∧ length out = length (List.filter is_letter text)
  | Raise _ => False
  | OutOfFuel => True
  end.
Proof.
  intros Hv. rewrite combine_text_filter.
  rewrite combine_text_letters by apply filter_is_letter_Forall.
  pose proof (draw_shaped fuel (length (List.filter is_letter text))
                (get_key_stream 0) d (valid_deck_shaped d Hv)
                ltac:(simpl; lia)) as H.
  destruct (draw fuel _ (get_key_stream 0) d) as [[ks d1]| |]; [|done..].
  destruct H as (P & Hlen & _). cbn [mbind result_bind]. split.
  - by eapply valid_deck_Permutation.
  - rewrite length_zip_with. lia.
Qed.

(** X22. The text path has no failure mode: on a permutation of 1..54,
    [encrypt] and [decrypt] raise no exception, whatever the text. When
    either returns, the deck it leaves is again a permutation of 1..54 and
    the output has one character for each ASCII letter of the text. *)
Theorem encrypt_never_raises (fuel : nat) (text : pystr) (d : deck) :
  valid_deck d →
  (∀ e, encrypt fuel text d ≠ Raise e)
  ∧ (∀ e, decrypt fuel text d ≠ Raise e)
  ∧ (∀ out d1,
       encrypt fuel text d = Ok (out, d1) ∨ decrypt fuel text d = Ok (out, d1) →
       valid_deck d1 ∧ length out = length (List.filter is_letter text)).
Proof.
  intros Hv. unfold encrypt, decrypt.
  pose proof (combine_text_valid fuel text d 1 Hv) as He.
  pose proof (combine_text_valid fuel text d (-1) Hv) as Hd.
  split; [|split].
  - intros e E. by rewrite E in He.
  - intros e E. by rewrite E in Hd.
  - intros out d1 [E|E]; [by rewrite E in He|by rewrite E in Hd].
Qed.

Lemma encrypt_never_raises_witness :
  ∃ out d1, encrypt 4 [72; 105; 33] (seqZ 1 54) = Ok (out, d1)
            ∧ valid_deck d1 ∧ length out = 2%nat.
Proof.
  eexists _, _. split; [vm_compute; reflexivity|].
  refine (proj2 (proj2 (encrypt_never_raises 4 [72; 105; 33] (seqZ 1 54) _))
            _ _ (or_introl _)).
  - unfold valid_deck. reflexivity.
  - vm_compute. reflexivity.
Defined.
